(** * Inkwell MCP: transport framer, dispatcher, auth resolver and SQLite adapter

    A shallow embedding of the core of the repository
    ([src/auth.ts], [src/mcp.ts], [src/local/stdio.ts], [src/db/sqlite.ts],
    [src/tools/stats.ts]) and the properties its specification states
    about it.

    Conventions of the embedding:
    - a JavaScript value of static type [unknown] is a [Js.value];
      numbers are the integral ones ([Z]), except in [Stats], where the
      arithmetic on rates is carried out over the rationals;
    - a JavaScript string is a [string]; its code units are the 8-bit
      characters of [ascii];
    - an object is an association list in property (insertion) order;
    - [async] functions are run to completion: every [await] in the
      modelled code is on a call whose effects on the modelled state are
      sequential. *)

From Stdlib Require Import ZArith QArith Qround Qabs String Ascii List DecimalString DecimalNat.
From stdpp Require Import gmap strings list.

Set Warnings "-register-all,-clear-no-such-hyp".
Open Scope string_scope.

(** stdpp makes [String.append] opaque to [simpl]; the proofs below unfold
    it on constructors. *)
Arguments String.append !s1 s2 : simpl nomatch.

(* ================================================================== *)
(** * Definitions *)
(* ================================================================== *)

(** ** JavaScript values and the built-ins the sources call *)

Module Js.

Inductive value : Type :=
  | VUndefined
  | VNull
  | VBool (b : bool)
  | VNum (n : Z)
  | VStr (s : string)
  | VArr (items : list value)
  | VObj (fields : list (string * value)).

(** What a [throw] can carry: an [Error] instance (its message and its
    other own properties, such as the [code] of a Node or SQLite error) or
    any other value. *)
Inductive thrown : Type :=
  | ThrownError (message : string) (props : list (string * value))
  | ThrownValue (v : value).

(** The outcome of a call that may throw. *)
Inductive completion (A : Type) : Type :=
  | Normal (a : A)
  | Throw (e : thrown).
Arguments Normal {A} a.
Arguments Throw {A} e.

(** [ToBoolean]: the falsy values are [undefined], [null], [false], [0]
    and the empty string. *)
Definition truthy (v : value) : bool :=
  match v with
  | VUndefined | VNull => false
  | VBool b => b
  | VNum n => negb (n =? 0)%Z
  | VStr s => negb (String.eqb s EmptyString)
  | VArr _ | VObj _ => true
  end.

(** Property read [o.k] / [o[k]] on an object given by its fields; an
    absent property reads as [undefined]. *)
Fixpoint get_field (k : string) (fields : list (string * value)) : value :=
  match fields with
  | [] => VUndefined
  | (k', v) :: rest => if String.eqb k k' then v else get_field k rest
  end.

(** The [in] operator on own properties. *)
Fixpoint has_field (k : string) (fields : list (string * value)) : bool :=
  match fields with
  | [] => false
  | (k', _) :: rest => String.eqb k k' || has_field k rest
  end.

(** Property write [o.k = v]: an existing property keeps its place, a new
    one goes last. *)
Fixpoint set_field (k : string) (v : value) (fields : list (string * value))
  : list (string * value) :=
  match fields with
  | [] => [(k, v)]
  | (k', v') :: rest =>
      if String.eqb k k' then (k', v) :: rest else (k', v') :: set_field k v rest
  end.

(** [v.k] for any value [v] that came out of [JSON.parse], where [k] is
    none of the built-in properties of strings and arrays. *)
Definition prop (k : string) (v : value) : value :=
  match v with
  | VObj fields => get_field k fields
  | _ => VUndefined
  end.

(** [Array.prototype.join]. *)
Fixpoint join (sep : string) (parts : list string) : string :=
  match parts with
  | [] => EmptyString
  | [p] => p
  | p :: rest => p ++ sep ++ join sep rest
  end.

Definition Z_to_string (n : Z) : string := NilZero.string_of_int (Z.to_int n).

(** [String(v)] and template-literal interpolation. *)
Fixpoint toString (v : value) : string :=
  match v with
  | VUndefined => "undefined"
  | VNull => "null"
  | VBool true => "true"
  | VBool false => "false"
  | VNum n => Z_to_string n
  | VStr s => s
  | VArr items =>
      join "," (List.map (fun x => match x with
                                   | VUndefined | VNull => EmptyString
                                   | _ => toString x
                                   end) items)
  | VObj _ => "[object Object]"
  end.

Definition dquote : string := String "034"%char EmptyString.

Definition hex_digit (n : nat) : ascii :=
  match n with
  | 0 => "0" | 1 => "1" | 2 => "2" | 3 => "3" | 4 => "4" | 5 => "5"
  | 6 => "6" | 7 => "7" | 8 => "8" | 9 => "9" | 10 => "a" | 11 => "b"
  | 12 => "c" | 13 => "d" | 14 => "e" | _ => "f"
  end%char.

(** The two lowercase hexadecimal digits of a number below 256:
    [n.toString(16).padStart(2, '0')]. *)
Definition hex2 (n : nat) : string :=
  String (hex_digit (n / 16)) (String (hex_digit (n mod 16)) EmptyString).

(** [QuoteJSONString]: the escapes of [JSON.stringify]. *)
Definition json_escape_char (c : ascii) : string :=
  let n := nat_of_ascii c in
  if Nat.eqb n 34 then "\" ++ dquote
  else if Nat.eqb n 92 then "\\"
  else if Nat.eqb n 8 then "\b"
  else if Nat.eqb n 9 then "\t"
  else if Nat.eqb n 10 then "\n"
  else if Nat.eqb n 12 then "\f"
  else if Nat.eqb n 13 then "\r"
  else if Nat.ltb n 32 then "\u00" ++ hex2 n
  else String c EmptyString.

Fixpoint json_escape (s : string) : string :=
  match s with
  | EmptyString => EmptyString
  | String c rest => json_escape_char c ++ json_escape rest
  end.

Definition json_quote (s : string) : string := dquote ++ json_escape s ++ dquote.

(** [JSON.stringify(v, null, gap)] at indentation [indent]; [gap] is the
    empty string for the compact form. [None] is the [undefined] that
    [JSON.stringify] returns for a value that has no JSON text. *)
Fixpoint stringify_at (gap indent : string) (v : value) : option string :=
  let compact := String.eqb gap EmptyString in
  let stepback := indent in
  let indent' := indent ++ gap in
  let wrap (l r : string) (parts : list string) : string :=
    match parts with
    | [] => l ++ r
    | _ =>
        if compact then l ++ join "," parts ++ r
        else l ++ String "010"%char indent'
               ++ join ("," ++ String "010"%char indent') parts
               ++ String "010"%char stepback ++ r
    end in
  match v with
  | VUndefined => None
  | VNull => Some "null"
  | VBool true => Some "true"
  | VBool false => Some "false"
  | VNum n => Some (Z_to_string n)
  | VStr s => Some (json_quote s)
  | VArr items =>
      Some (wrap "[" "]"
              (List.map (fun x => match stringify_at gap indent' x with
                                  | Some t => t
                                  | None => "null"
                                  end) items))
  | VObj fields =>
      Some (wrap "{" "}"
              (List.flat_map
                 (fun kv => match stringify_at gap indent' (snd kv) with
                            | Some t =>
                                [json_quote (fst kv)
                                 ++ (if compact then ":" else ": ") ++ t]
                            | None => []
                            end) fields))
  end.

(** [JSON.stringify(v)]. *)
Definition JSON_stringify (v : value) : option string :=
  stringify_at EmptyString EmptyString v.

(** [JSON.stringify(v, null, 2)]. *)
Definition JSON_stringify_2 (v : value) : option string :=
  stringify_at "  " EmptyString v.

(** A [string | undefined] result as a value. *)
Definition of_option_string (o : option string) : value :=
  match o with
  | Some s => VStr s
  | None => VUndefined
  end.

(** [\s] of a regular expression and the white space of [trim], among
    the 8-bit code units: tab, line feed, vertical tab, form feed,
    carriage return, space and no-break space. *)
Definition is_space (c : ascii) : bool :=
  let n := nat_of_ascii c in
  (Nat.leb 9 n && Nat.leb n 13) || Nat.eqb n 32 || Nat.eqb n 160.

Fixpoint trim_start (s : string) : string :=
  match s with
  | EmptyString => EmptyString
  | String c rest => if is_space c then trim_start rest else s
  end.

(** [trim_end s] drops the trailing white space: a character is kept when
    it is not white space or something kept follows it. *)
Fixpoint trim_end (s : string) : string :=
  match s with
  | EmptyString => EmptyString
  | String c rest =>
      match trim_end rest with
      | EmptyString => if is_space c then EmptyString else String c EmptyString
      | kept => String c kept
      end
  end.

(** [String.prototype.trim]. *)
Definition trim (s : string) : string := trim_end (trim_start s).

(** The lower-case form of an ASCII letter; other characters are kept. *)
Definition ascii_lower (c : ascii) : ascii :=
  let n := nat_of_ascii c in
  if Nat.leb 65 n && Nat.leb n 90 then ascii_of_nat (n + 32) else c.

(** [s.slice(0, n)] and [s.slice(n)] for [n] within the string. *)
Fixpoint str_take (n : nat) (s : string) : string :=
  match n, s with
  | S n', String c rest => String c (str_take n' rest)
  | _, _ => EmptyString
  end.

Fixpoint str_drop (n : nat) (s : string) : string :=
  match n, s with
  | S n', String _ rest => str_drop n' rest
  | _, _ => s
  end.

Definition nat_to_string (n : nat) : string := NilZero.string_of_uint (Nat.to_uint n).

End Js.

(** ** [src/auth.ts] *)

Module Auth.

Inductive Role : Type := owner | public.

Record AuthContext : Type := { role : Role }.

(** [!key] for a key of type [string | undefined]. *)
Definition key_falsy (key : option string) : bool :=
  match key with
  | None => true
  | Some s => String.eqb s EmptyString
  end.

(** [providedKey === ownerKey], both of type [string | undefined]. *)
Definition key_eqb (a b : option string) : bool :=
  match a, b with
  | Some x, Some y => String.eqb x y
  | None, None => true
  | _, _ => false
  end.

Definition resolveAuth (authEnabled : bool) (ownerKey providedKey : option string)
  : option AuthContext :=
  if negb authEnabled then Some {| role := owner |}
  else if key_falsy providedKey || key_falsy ownerKey then Some {| role := public |}
  else if key_eqb providedKey ownerKey then Some {| role := owner |}
  else Some {| role := public |}.

(** [requireOwner] throws the plain object [{ code: 403, message }]. *)
Definition requireOwner (ctx : option AuthContext) : Js.completion AuthContext :=
  match ctx with
  | Some {| role := owner |} => Js.Normal {| role := owner |}
  | _ => Js.Throw (Js.ThrownValue
                     (Js.VObj [("code", Js.VNum 403);
                               ("message", Js.VStr "Owner access required")]))
  end.

End Auth.

(** ** [src/db/sqlite.ts] *)

Module Sqlite.
Import Js.

(** *** Schema bootstrap *)

(** The scripts of [MIGRATIONS] are sequences of [CREATE TABLE IF NOT
    EXISTS] and [CREATE INDEX IF NOT EXISTS] statements; a statement is
    represented by the schema object it creates (column definitions are
    not part of the model). *)
Inductive Stmt : Type :=
  | CreateTable (object : string)
  | CreateIndex (object : string).

Definition stmt_object (s : Stmt) : string :=
  match s with
  | CreateTable o | CreateIndex o => o
  end.

Record Migration : Type := { name : string; sql : list Stmt }.

Definition MIGRATIONS : list Migration :=
  [ {| name := "001_core.sql";
       sql := [ CreateTable "articles"; CreateTable "experts"; CreateTable "tags";
                CreateTable "article_experts"; CreateTable "article_tags";
                CreateIndex "idx_articles_status";
                CreateIndex "idx_articles_published_at";
                CreateIndex "idx_articles_number";
                CreateIndex "idx_experts_name";
                CreateIndex "idx_tags_category" ] |};
    {| name := "002_editorial.sql";
       sql := [ CreateTable "editorial_notes"; CreateTable "editorial_sources";
                CreateIndex "idx_notes_status"; CreateIndex "idx_notes_target";
                CreateIndex "idx_notes_type"; CreateIndex "idx_sources_status";
                CreateIndex "idx_sources_target"; CreateIndex "idx_sources_url" ] |};
    {| name := "003_usage.sql";
       sql := [ CreateTable "usage_stats"; CreateTable "search_queries";
                CreateIndex "idx_usage_tool"; CreateIndex "idx_usage_ts";
                CreateIndex "idx_search_ts" ] |} ].

(** The part of the database file that [migrate] reads and writes: the
    schema objects that exist, and the [name] column of the rows of
    [_migrations] in insertion order. *)
Record Store : Type := { objects : gset string; ledger : list string }.

(** [db.exec] and [run] are calls into SQLite, which may fail (I/O error,
    full disk, a statement the existing schema rejects). A [Fault] fixes
    when: [Some k] lets [k] more statements complete and fails the next
    one, [None] never fails. The database runs in autocommit mode (the
    adapter opens no transaction), so the statements completed before a
    failure stay in the store. *)
Definition Fault : Type := option nat.

Definition tick (f : Fault) : option Fault :=
  match f with
  | None => Some None
  | Some 0 => None
  | Some (S k) => Some (Some k)
  end.

Definition SqliteError (code message : string) : thrown :=
  ThrownError message [("code", VStr code)].

Definition run_stmt (s : Stmt) (db : Store) : Store :=
  {| objects := {[ stmt_object s ]} ∪ objects db; ledger := ledger db |}.

(** [db.exec(script)]: the statements run one after the other and the
    first failure throws. *)
Fixpoint exec (script : list Stmt) (f : Fault) (db : Store)
  : completion unit * Fault * Store :=
  match script with
  | [] => (Normal tt, f, db)
  | s :: rest =>
      match tick f with
      | None => (Throw (SqliteError "SQLITE_ERROR" "statement failed"), f, db)
      | Some f' => exec rest f' (run_stmt s db)
      end
  end.

(** [INSERT INTO _migrations (name) VALUES (?)]; [name] is the primary
    key. *)
Definition insert_ledger (n : string) (f : Fault) (db : Store)
  : completion unit * Fault * Store :=
  match tick f with
  | None => (Throw (SqliteError "SQLITE_ERROR" "statement failed"), f, db)
  | Some f' =>
      if decide (n ∈ ledger db)
      then (Throw (SqliteError "SQLITE_CONSTRAINT_PRIMARYKEY"
                     "UNIQUE constraint failed: _migrations.name"), f', db)
      else (Normal tt, f', {| objects := objects db; ledger := ledger db ++ [n] |})
  end.

(** What a run of [migrate] leaves: how it completed, the store, and the
    names of the migrations whose script was handed to [db.exec]. *)
Record MigrateRun : Type :=
  { outcome : completion unit; store : Store; executed : list string }.

(** The [for] loop of [migrate] over the migrations still to visit. *)
Fixpoint apply_pending (applied : gset string) (ms : list Migration)
    (f : Fault) (db : Store) : MigrateRun :=
  match ms with
  | [] => {| outcome := Normal tt; store := db; executed := [] |}
  | m :: rest =>
      if decide (name m ∈ applied) then apply_pending applied rest f db
      else
        match exec (sql m) f db with
        | (Throw e, _, db1) =>
            {| outcome := Throw e; store := db1; executed := [name m] |}
        | (Normal _, f1, db1) =>
            match insert_ledger (name m) f1 db1 with
            | (Throw e, _, db2) =>
                {| outcome := Throw e; store := db2; executed := [name m] |}
            | (Normal _, f2, db2) =>
                let r := apply_pending applied rest f2 db2 in
                {| outcome := outcome r; store := store r;
                   executed := name m :: executed r |}
            end
        end
  end.

Definition migrate_over (ms : list Migration) (f : Fault) (db : Store) : MigrateRun :=
  match exec [CreateTable "_migrations"] f db with
  | (Throw e, _, db0) => {| outcome := Throw e; store := db0; executed := [] |}
  | (Normal _, f0, db0) =>
      let applied : gset string := list_to_set (ledger db0) in
      apply_pending applied ms f0 db0
  end.

Definition migrate (f : Fault) (db : Store) : MigrateRun :=
  migrate_over MIGRATIONS f db.

(** A migration's script is applied when every object it creates exists,
    touched when at least one does, and the migration is recorded when
    the ledger has its name. *)
Definition applied_in (db : Store) (m : Migration) : Prop :=
  ∀ s, s ∈ sql m → stmt_object s ∈ objects db.

Definition touched_in (db : Store) (m : Migration) : Prop :=
  ∃ s, s ∈ sql m ∧ stmt_object s ∈ objects db.

Definition recorded_in (db : Store) (m : Migration) : Prop :=
  name m ∈ ledger db.

(** *** Declarative queries: [types.ts] and the private helpers *)

Abbreviation Row := (list (string * Js.value)).

Inductive Op : Type :=
  | op_eq | op_neq | op_gt | op_gte | op_lt | op_lte
  | op_like | op_ilike | op_is | op_in | op_cs.

Record Filter : Type := { column : string; op : Op; value : Js.value }.

Inductive Direction : Type := asc | desc.
Inductive Nulls : Type := nulls_first | nulls_last.

Record OrderBy : Type :=
  { order_column : string; direction : Direction; nulls : option Nulls }.

Record QueryOptions : Type :=
  { table : string;
    select : option (list string);
    filters : option (list Filter);
    order : option (list OrderBy);
    limit : option Z;
    offset : option Z }.

Definition serializeValue (val : Js.value) : Js.value :=
  match val with
  | VNull | VUndefined => VNull
  | VArr _ | VObj _ => of_option_string (JSON_stringify val)
  | VBool b => VNum (if b then 1 else 0)
  | _ => val
  end.

(** The SQL text that the adapter assembles is kept as its syntax tree;
    [clause_text], [where_text] and [select_text] give the characters. A
    clause is [column operator ?], [column IS NULL] or
    [column IN (?, ..., ?)]. *)
Inductive SqlOp : Type :=
  | OEq | ONe | OGt | OGe | OLt | OLe | OLike | OLikeNocase | OIs.

Inductive Clause : Type :=
  | Cmp (col : string) (o : SqlOp)
  | IsNull (col : string)
  | InList (col : string) (placeholders : nat).

Definition clause_text (c : Clause) : string :=
  match c with
  | Cmp col OEq => col ++ " = ?"
  | Cmp col ONe => col ++ " != ?"
  | Cmp col OGt => col ++ " > ?"
  | Cmp col OGe => col ++ " >= ?"
  | Cmp col OLt => col ++ " < ?"
  | Cmp col OLe => col ++ " <= ?"
  | Cmp col OLike => col ++ " LIKE ?"
  | Cmp col OLikeNocase => col ++ " LIKE ? COLLATE NOCASE"
  | Cmp col OIs => col ++ " IS ?"
  | IsNull col => col ++ " IS NULL"
  | InList col n => col ++ " IN (" ++ join ", " (repeat "?" n) ++ ")"
  end.

(** One turn of the [for] loop of [buildWhere]: what the filter pushes on
    [clauses] and on [params]. *)
Definition filter_clauses (f : Filter) : list Clause * list Js.value :=
  match op f with
  | op_eq => ([Cmp (column f) OEq], [serializeValue (value f)])
  | op_neq => ([Cmp (column f) ONe], [serializeValue (value f)])
  | op_gt => ([Cmp (column f) OGt], [value f])
  | op_gte => ([Cmp (column f) OGe], [value f])
  | op_lt => ([Cmp (column f) OLt], [value f])
  | op_lte => ([Cmp (column f) OLe], [value f])
  | op_like => ([Cmp (column f) OLike], [value f])
  | op_ilike => ([Cmp (column f) OLikeNocase], [value f])
  | op_is =>
      match value f with
      | VNull => ([IsNull (column f)], [])
      | v => ([Cmp (column f) OIs], [v])
      end
  | op_in =>
      match value f with
      | VArr (x :: xs) => ([InList (column f) (length (x :: xs))], x :: xs)
      | _ => ([], [])
      end
  | op_cs => ([Cmp (column f) OLike], [VStr ("%" ++ toString (value f) ++ "%")])
  end.

(** [where_ = None] is the empty string; [Some clauses] is [WHERE]
    followed by the clauses joined with [AND]. *)
Record Where : Type := { where_ : option (list Clause); params : list Js.value }.

Definition buildWhere (fs : list Filter) : Where :=
  match fs with
  | [] => {| where_ := None; params := [] |}
  | _ => {| where_ := Some (flat_map (fun f => fst (filter_clauses f)) fs);
            params := flat_map (fun f => snd (filter_clauses f)) fs |}
  end.

Definition where_text (w : option (list Clause)) : string :=
  match w with
  | None => EmptyString
  | Some clauses => "WHERE " ++ join " AND " (List.map clause_text clauses)
  end.

Record Select : Type :=
  { s_select : option (list string);
    s_table : string;
    s_where : option (list Clause);
    s_order : list OrderBy;
    s_limit : option Z;
    s_offset : option Z }.

Definition buildSelect (opts : QueryOptions) : Select * list Js.value :=
  let w := match filters opts with
           | Some fs => buildWhere fs
           | None => {| where_ := None; params := [] |}
           end in
  ({| s_select := select opts;
      s_table := table opts;
      s_where := where_ w;
      s_order := match order opts with Some os => os | None => [] end;
      s_limit := limit opts;
      s_offset := match limit opts with Some _ => offset opts | None => None end |},
   params w).

Definition order_text (o : OrderBy) : string :=
  order_column o ++ " " ++ (match direction o with asc => "asc" | desc => "desc" end)
  ++ (match nulls o with
      | Some nulls_last => " NULLS LAST"
      | Some nulls_first => " NULLS FIRST"
      | None => EmptyString
      end).

Definition select_text (q : Select) : string :=
  let sel := match s_select q with
             | Some cols => join ", " cols
             | None => "*"
             end in
  let orderBy := match s_order q with
                 | [] => EmptyString
                 | os => "ORDER BY " ++ join ", " (List.map order_text os)
                 end in
  let limitClause :=
    match s_limit q with
    | None => EmptyString
    | Some n => "LIMIT " ++ Z_to_string n
                ++ (match s_offset q with
                    | Some m => " OFFSET " ++ Z_to_string m
                    | None => EmptyString
                    end)
    end in
  trim ("SELECT " ++ sel ++ " FROM " ++ s_table q ++ " " ++ where_text (s_where q)
        ++ " " ++ orderBy ++ " " ++ limitClause).

(** *** The database behind [this.db]

    [better-sqlite3] is outside the repository. What follows is a
    reference semantics for the statements the adapter prepares, over
    schema-less tables: a table is the list of its rows in rowid order, a
    row lists its cells, and a cell that a row lacks reads as [NULL].
    Column affinity, defaults and constraints are not part of it. *)

Abbreviation Database := (gmap string (list Row)).

Definition cell (col : string) (r : Row) : Js.value :=
  match get_field col r with
  | VUndefined => VNull
  | v => v
  end.

(** The order of SQLite's storage classes: [NULL] compares with nothing,
    a number sorts before a text. *)
Definition sql_compare (a b : Js.value) : option comparison :=
  match a, b with
  | VNum x, VNum y => Some (x ?= y)%Z
  | VStr x, VStr y => Some (String.compare x y)
  | VNum _, VStr _ => Some Lt
  | VStr _, VNum _ => Some Gt
  | _, _ => None
  end.

(** [LIKE]: [%] is any run of characters, [_] any one character, and
    ASCII letters match without regard to case. *)
Fixpoint like_match (pattern s : string) : bool :=
  match pattern with
  | EmptyString => match s with EmptyString => true | _ => false end
  | String p pattern' =>
      if Ascii.eqb p "%" then
        (fix skip (t : string) : bool :=
           like_match pattern' t
           || match t with
              | EmptyString => false
              | String _ t' => skip t'
              end) s
      else
        match s with
        | EmptyString => false
        | String c s' =>
            (Ascii.eqb p "_" || Ascii.eqb (ascii_lower p) (ascii_lower c))
            && like_match pattern' s'
        end
  end.

Definition sql_text (v : Js.value) : option string :=
  match v with
  | VStr t => Some t
  | VNum n => Some (Z_to_string n)
  | _ => None
  end.

Definition is_null (v : Js.value) : bool :=
  match v with
  | VNull | VUndefined => true
  | _ => false
  end.

(** The truth value of [a o b]; [None] is SQL's unknown. *)
Definition eval_op (o : SqlOp) (a b : Js.value) : option bool :=
  let by_order (test : comparison → bool) := test <$> sql_compare a b in
  match o with
  | OEq => by_order (fun c => match c with Eq => true | _ => false end)
  | ONe => by_order (fun c => match c with Eq => false | _ => true end)
  | OGt => by_order (fun c => match c with Gt => true | _ => false end)
  | OGe => by_order (fun c => match c with Lt => false | _ => true end)
  | OLt => by_order (fun c => match c with Lt => true | _ => false end)
  | OLe => by_order (fun c => match c with Gt => false | _ => true end)
  | OLike | OLikeNocase =>
      match sql_text a, sql_text b with
      | Some t, Some pattern => Some (like_match pattern t)
      | _, _ => None
      end
  | OIs =>
      Some (match sql_compare a b with
            | Some Eq => true
            | Some _ => false
            | None => is_null a && is_null b
            end)
  end.

Definition clause_arity (c : Clause) : nat :=
  match c with
  | Cmp _ _ => 1
  | IsNull _ => 0
  | InList _ n => n
  end.

(** A clause on a row, given the parameters bound to its placeholders. *)
Definition eval_clause (c : Clause) (bound : list Js.value) (r : Row) : option bool :=
  match c with
  | Cmp col o => eval_op o (cell col r) (List.hd VNull bound)
  | IsNull col => Some (is_null (cell col r))
  | InList col _ =>
      if existsb (fun v => match eval_op OEq (cell col r) v with
                           | Some true => true
                           | _ => false
                           end) bound
      then Some true
      else if is_null (cell col r) || existsb is_null bound then None
      else Some false
  end.

(** A row passes the conjunction when every clause is true of it. *)
Fixpoint eval_where (clauses : list Clause) (bound : list Js.value) (r : Row) : bool :=
  match clauses with
  | [] => true
  | c :: rest =>
      match eval_clause c (firstn (clause_arity c) bound) r with
      | Some true => eval_where rest (skipn (clause_arity c) bound) r
      | _ => false
      end
  end.

(** [ORDER BY]: [NULL] is the smallest value unless the term places it. *)
Definition term_compare (o : OrderBy) (r1 r2 : Row) : comparison :=
  let a := cell (order_column o) r1 in
  let b := cell (order_column o) r2 in
  let nulls_go_first :=
    match nulls o with
    | Some nulls_first => true
    | Some nulls_last => false
    | None => match direction o with asc => true | desc => false end
    end in
  match is_null a, is_null b with
  | true, true => Eq
  | true, false => if nulls_go_first then Lt else Gt
  | false, true => if nulls_go_first then Gt else Lt
  | false, false =>
      match sql_compare a b, direction o with
      | Some c, asc => c
      | Some c, desc => CompOpp c
      | None, _ => Eq
      end
  end.

Fixpoint rows_compare (os : list OrderBy) (r1 r2 : Row) : comparison :=
  match os with
  | [] => Eq
  | o :: rest =>
      match term_compare o r1 r2 with
      | Eq => rows_compare rest r1 r2
      | c => c
      end
  end.

Fixpoint insert_sorted (os : list OrderBy) (r : Row) (sorted : list Row) : list Row :=
  match sorted with
  | [] => [r]
  | r' :: rest =>
      match rows_compare os r r' with
      | Gt => r' :: insert_sorted os r rest
      | _ => r :: sorted
      end
  end.

Definition order_rows (os : list OrderBy) (rows : list Row) : list Row :=
  foldr (insert_sorted os) [] rows.

(** [LIMIT n OFFSET m]: a negative [n] is no limit. *)
Definition limit_rows (lim off : option Z) (rows : list Row) : list Row :=
  let rows := match off with
              | Some m => skipn (Z.to_nat m) rows
              | None => rows
              end in
  match lim with
  | Some n => if (n <? 0)%Z then rows else firstn (Z.to_nat n) rows
  | None => rows
  end.

Definition project (cols : option (list string)) (r : Row) : Row :=
  match cols with
  | None => r
  | Some cs => List.map (fun c => (c, cell c r)) cs
  end.

(** [db.prepare(sql).all(...params)] for a [SELECT]. A [WHERE] with no
    clause after it does not parse, and the number of bound parameters
    has to be the number of placeholders. *)
Definition sqlite_all (db : Database) (q : Select) (bound : list Js.value)
  : completion (list Row) :=
  match db !! s_table q with
  | None => Throw (SqliteError "SQLITE_ERROR" "no such table")
  | Some rows =>
      match s_where q with
      | Some [] => Throw (SqliteError "SQLITE_ERROR" "incomplete input")
      | w =>
          let clauses := match w with Some cs => cs | None => [] end in
          if Nat.eqb (list_sum (List.map clause_arity clauses)) (length bound)
          then Normal (List.map (project (s_select q))
                         (limit_rows (s_limit q) (s_offset q)
                            (order_rows (s_order q)
                               (List.filter (eval_where clauses bound) rows))))
          else Throw (ThrownError "Too few parameter values were provided" [])
      end
  end.

Definition query (opts : QueryOptions) (db : Database) : completion (list Row) :=
  let '(q, bound) := buildSelect opts in
  sqlite_all db q bound.


(** *** [insert]

    The caller's [data] is a reference to an object; [Heap] holds the
    objects, so that what [insert] does to its argument is visible to
    whoever else holds the reference. *)

Abbreviation loc := nat (only parsing).
Abbreviation Heap := (gmap nat Row).

(** [generateId], given the sixteen bytes that [crypto.getRandomValues]
    stored in the array. *)
Definition generateId (bytes : list Byte.byte) : string :=
  join EmptyString (List.map (fun b => hex2 (N.to_nat (Byte.to_N b))) bytes).

Record InsertStmt : Type := { i_table : string; i_columns : list string }.

Definition insert_text (q : InsertStmt) : string :=
  "INSERT INTO " ++ i_table q ++ " (" ++ join ", " (i_columns q) ++ ") VALUES ("
  ++ join ", " (List.map (fun _ => "?") (i_columns q)) ++ ") RETURNING *".

(** [db.prepare(sql).get(...values)] for an [INSERT ... RETURNING *]: the
    new row goes last in its table and is what comes back. *)
Definition sqlite_insert (db : Database) (q : InsertStmt) (bound : list Js.value)
  : completion (Row * Database) :=
  match db !! i_table q with
  | None => Throw (SqliteError "SQLITE_ERROR" "no such table")
  | Some rows =>
      let row := List.combine (i_columns q) bound in
      Normal (row, <[i_table q := (rows ++ [row])%list]> db)
  end.

(** The first statement of [insert]: [if (!data.id) data.id = this.generateId()]. *)
Definition assign_id (data : loc) (random : list Byte.byte) (h : Heap) : Heap :=
  match h !! data with
  | Some row =>
      if truthy (get_field "id" row) then h
      else <[data := set_field "id" (VStr (generateId random)) row]> h
  | None => h
  end.

(** The statement and the values that [insert] builds from the object. *)
Definition build_insert (tbl : string) (row : Row) : InsertStmt * list Js.value :=
  let columns := List.map fst row in
  ({| i_table := tbl; i_columns := columns |},
   List.map (fun c => serializeValue (get_field c row)) columns).

(** [insert(table, data)]: the result, the heap and the database after
    the call. A reference always denotes an object; the [None] branch is
    there for totality only. *)
Definition insert (tbl : string) (data : loc) (random : list Byte.byte)
    (h : Heap) (db : Database) : completion Row * Heap * Database :=
  let h' := assign_id data random h in
  match h' !! data with
  | None => (Throw (ThrownError "not an object" []), h', db)
  | Some row =>
      let '(q, bound) := build_insert tbl row in
      match sqlite_insert db q bound with
      | Normal (result, db') => (Normal result, h', db')
      | Throw e => (Throw e, h', db)
      end
  end.

(** *** [update], [delete] and [count] *)

Record UpdateStmt : Type :=
  { u_table : string; u_columns : list string; u_where : option (list Clause) }.

Definition update_text (q : UpdateStmt) : string :=
  "UPDATE " ++ u_table q ++ " SET "
  ++ join ", " (List.map (fun c => c ++ " = ?") (u_columns q))
  ++ " " ++ where_text (u_where q) ++ " RETURNING *".

Record DeleteStmt : Type := { d_table : string; d_where : option (list Clause) }.

Definition delete_text (q : DeleteStmt) : string :=
  "DELETE FROM " ++ d_table q ++ " " ++ where_text (d_where q) ++ " RETURNING *".

Definition where_clauses (w : option (list Clause)) : list Clause :=
  match w with
  | Some clauses => clauses
  | None => []
  end.

(** Whether the statement parses as far as its [WHERE] goes, and whether
    the bound values are as many as the placeholders. *)
Definition where_parses (w : option (list Clause)) : bool :=
  match w with
  | Some [] => false
  | _ => true
  end.

Definition binds (placeholders : nat) (bound : list Js.value) : bool :=
  Nat.eqb placeholders (length bound).



(** The same for a [DELETE ... RETURNING *]: the rows that pass the
    [WHERE] leave the table and come back. *)
Definition sqlite_delete (db : Database) (q : DeleteStmt) (bound : list Js.value)
  : completion (list Row) * Database :=
  match db !! d_table q with
  | None => (Throw (SqliteError "SQLITE_ERROR" "no such table"), db)
  | Some rows =>
      if negb (where_parses (d_where q))
      then (Throw (SqliteError "SQLITE_ERROR" "incomplete input"), db)
      else
        let clauses := where_clauses (d_where q) in
        if binds (list_sum (List.map clause_arity clauses)) bound
        then
          let hit := eval_where clauses bound in
          (Normal (List.filter hit rows),
           <[d_table q := List.filter (fun r => negb (hit r)) rows]> db)
        else (Throw (ThrownError "Too few parameter values were provided" []), db)
  end.

(** [db.prepare(sql).get(...params)] for [SELECT COUNT( * ) as cnt]: the
    value of [cnt]. *)
Definition sqlite_count (db : Database) (tbl : string) (w : option (list Clause))
    (bound : list Js.value) : completion nat :=
  match db !! tbl with
  | None => Throw (SqliteError "SQLITE_ERROR" "no such table")
  | Some rows =>
      if negb (where_parses w)
      then Throw (SqliteError "SQLITE_ERROR" "incomplete input")
      else
        let clauses := where_clauses w in
        if binds (list_sum (List.map clause_arity clauses)) bound
        then Normal (length (List.filter (eval_where clauses bound) rows))
        else Throw (ThrownError "Too few parameter values were provided" [])
  end.


Definition delete (tbl : string) (fs : list Filter) (db : Database)
  : completion (list Row) * Database :=
  let w := buildWhere fs in
  sqlite_delete db {| d_table := tbl; d_where := where_ w |} (params w).

(** [count(table, filters?)]. *)
Definition count (tbl : string) (fs : option (list Filter)) (db : Database)
  : completion nat :=
  let w := match fs with
           | Some l => buildWhere l
           | None => {| where_ := None; params := [] |}
           end in
  sqlite_count db tbl (where_ w) (params w).

End Sqlite.

(** ** [src/mcp.ts] *)

Module Mcp.
Import Js Auth.

Record Config : Type := { config_name : string; config_description : string }.

(** [env.config] is read-only; [env.db] is the state [St] that the tool
    handlers read and write, threaded through the calls. *)
Record Env : Type := { config : Config }.

Record JsonRpcResponse : Type :=
  { id : value; result : option value; error : option (value * value) }.

Definition mcpError (i code message : value) : JsonRpcResponse :=
  {| id := i; result := None; error := Some (code, message) |}.

Definition mcpResult (i r : value) : JsonRpcResponse :=
  {| id := i; result := Some r; error := None |}.

(** The response object as [JSON.stringify] sees it. *)
Definition response_value (r : JsonRpcResponse) : value :=
  VObj ([("jsonrpc", VStr "2.0"); ("id", id r)]
        ++ match result r with
           | Some v => [("result", v)]
           | None => []
           end
        ++ match error r with
           | Some (code, message) =>
               [("error", VObj [("code", code); ("message", message)])]
           | None => []
           end)%list.

(** A thrown value that passes
    [err && typeof err === 'object' && 'code' in err && 'message' in err]
    and the [e.code] and [e.message] read off it. An [Error] instance
    always has a [message]. *)
Definition code_and_message (err : thrown) : option (value * value) :=
  match err with
  | ThrownError message props =>
      if has_field "code" props
      then Some (get_field "code" props, VStr message)
      else None
  | ThrownValue (VObj fields) =>
      if has_field "code" fields && has_field "message" fields
      then Some (get_field "code" fields, get_field "message" fields)
      else None
  | ThrownValue _ => None
  end.

(** [err instanceof Error ? err.message : String(err)]. *)
Definition error_text (err : thrown) : string :=
  match err with
  | ThrownError message _ => message
  | ThrownValue v => toString v
  end.

Section Dispatcher.
Context {St : Type}.

Record McpTool : Type :=
  { name : string;
    description : string;
    inputSchema : value;
    handler : value → option AuthContext → Env → St → completion value * St }.

(** The tool modules are the collaborators of the dispatcher; it knows
    them as the list [ALL_TOOLS]. *)
Variable ALL_TOOLS : list McpTool.

(** [new Map(ALL_TOOLS.map(t => [t.name, t]))]: a later entry replaces an
    earlier one of the same name. *)
Definition TOOL_MAP : gmap string McpTool :=
  foldl (fun m t => <[name t := t]> m) ∅ ALL_TOOLS.

(** [TOOL_MAP.get(toolName)]; the keys are strings. *)
Definition TOOL_MAP_get (toolName : value) : option McpTool :=
  match toolName with
  | VStr n => TOOL_MAP !! n
  | _ => None
  end.

Definition call_tool (i params : value) (ctx : option AuthContext) (env : Env) (st : St)
  : JsonRpcResponse * St :=
  let toolName := prop "name" params in
  let toolArgs := match prop "arguments" params with
                  | VUndefined | VNull => VObj []
                  | a => a
                  end in
  if negb (truthy toolName) then
    (mcpError i (VNum (-32602)) (VStr "Missing tool name"), st)
  else
    match TOOL_MAP_get toolName with
    | None =>
        (mcpError i (VNum (-32601)) (VStr ("Unknown tool: " ++ toString toolName)), st)
    | Some tool =>
        match handler tool toolArgs ctx env st with
        | (Normal r, st') =>
            (mcpResult i
               (VObj [("content",
                       VArr [VObj [("type", VStr "text");
                                   ("text", of_option_string (JSON_stringify_2 r))]])]),
             st')
        | (Throw err, st') =>
            match code_and_message err with
            | Some (code, message) => (mcpError i code message, st')
            | None =>
                (mcpError i (VNum (-32603)) (VStr ("Tool error: " ++ error_text err)),
                 st')
            end
        end
    end.

(** [handleJsonRpc]. Destructuring [req] is outside the [try]: a [null]
    request rejects the promise. Nothing inside the outer [try] throws in
    this model, so its [catch] has no counterpart. *)
Definition handleJsonRpc (req : value) (ctx : option AuthContext) (env : Env) (st : St)
  : completion JsonRpcResponse * St :=
  match req with
  | VNull | VUndefined =>
      (Throw (ThrownError "Cannot destructure property 'id' of 'req'" []), st)
  | _ =>
      let i := prop "id" req in
      let method := prop "method" req in
      let params := prop "params" req in
      match method with
      | VStr m =>
          if String.eqb m "initialize" then
            (Normal (mcpResult i
               (VObj [("protocolVersion", VStr "2024-11-05");
                      ("capabilities", VObj [("tools", VObj [])]);
                      ("serverInfo",
                       VObj [("name", VStr (config_name (config env)));
                             ("version", VStr "0.1.0");
                             ("description",
                              VStr (config_description (config env)))])])), st)
          else if String.eqb m "tools/list" then
            (Normal (mcpResult i
               (VObj [("tools",
                       VArr (List.map (fun t => VObj [("name", VStr (name t));
                                                      ("description", VStr (description t));
                                                      ("inputSchema", inputSchema t)])
                               ALL_TOOLS))])), st)
          else if String.eqb m "tools/call" then
            let '(response, st') := call_tool i params ctx env st in
            (Normal response, st')
          else if String.eqb m "notifications/initialized" || String.eqb m "ping" then
            (Normal (mcpResult i (VObj [])), st)
          else
            (Normal (mcpError i (VNum (-32601)) (VStr ("Method not found: " ++ m))), st)
      | other =>
          (Normal (mcpError i (VNum (-32601))
                     (VStr ("Method not found: " ++ toString other))), st)
      end
  end.

End Dispatcher.

Arguments McpTool St : clear implicits.

End Mcp.

(** ** [src/local/stdio.ts] *)

Module Stdio.
Import Js Auth Mcp.

Definition CRLF : string := String "013" (String "010" EmptyString).
Definition LF : string := String "010" EmptyString.

(** [prefix_ci p s]: [s] starts with [p], ASCII letters compared without
    regard to case. *)
Fixpoint prefix_ci (p s : string) : bool :=
  match p, s with
  | EmptyString, _ => true
  | String a p', String b s' =>
      Ascii.eqb (ascii_lower a) (ascii_lower b) && prefix_ci p' s'
  | _, _ => false
  end.

Definition is_digit (c : ascii) : bool :=
  let n := nat_of_ascii c in Nat.leb 48 n && Nat.leb n 57.

Fixpoint take_digits (s : string) : string :=
  match s with
  | String c rest => if is_digit c then String c (take_digits rest) else EmptyString
  | EmptyString => EmptyString
  end.

(** [parseInt(digits, 10)] on a run of decimal digits. *)
Definition parseInt (digits : string) : nat :=
  fold_left (fun acc c => 10 * acc + (nat_of_ascii c - 48))
    (list_ascii_of_string digits) 0.

(** An attempt of [/Content-Length:\s*(\d+)/i] at the start of [s]; the
    result is the captured run of digits. *)
Definition match_here (s : string) : option string :=
  if prefix_ci "Content-Length:" s then
    match take_digits (trim_start (str_drop 15 s)) with
    | EmptyString => None
    | digits => Some digits
    end
  else None.

(** [header.match(/Content-Length:\s*(\d+)/i)]: the leftmost match. *)
Fixpoint header_match (header : string) : option string :=
  match header with
  | EmptyString => None
  | String _ rest =>
      match match_here header with
      | Some digits => Some digits
      | None => header_match rest
      end
  end.

(** What one turn of the [while] loop of [processBuffer] does with a
    buffer that is not empty. *)
Inductive Turn : Type :=
  | Wait
  | Message (body rest : string)
  | Skip (rest : string).

Definition line_turn (buffer : string) : Turn :=
  match String.index 0 LF buffer with
  | None => Wait
  | Some lineEnd =>
      let line := trim (str_take lineEnd buffer) in
      let rest := str_drop (lineEnd + 1) buffer in
      match line with
      | EmptyString => Skip rest
      | _ => Message line rest
      end
  end.

Definition turn (buffer : string) : Turn :=
  match String.index 0 (CRLF ++ CRLF) buffer with
  | Some headerEnd =>
      let header := str_take headerEnd buffer in
      match header_match header with
      | Some digits =>
          let contentLength := parseInt digits in
          let bodyStart := headerEnd + 4 in
          let available := String.length buffer - bodyStart in
          if Nat.ltb available contentLength then Wait
          else Message (str_take contentLength (str_drop bodyStart buffer))
                 (str_drop (bodyStart + contentLength) buffer)
      | None => line_turn buffer
      end
  | None => line_turn buffer
  end.

(** The loop, with one unit of fuel for each turn: the bodies handed to
    [handleMessage], in order, and the buffer that is left. *)
Fixpoint drain (fuel : nat) (buffer : string) : list string * string :=
  match fuel with
  | 0 => ([], buffer)
  | S fuel' =>
      match buffer with
      | EmptyString => ([], buffer)
      | _ =>
          match turn buffer with
          | Wait => ([], buffer)
          | Message body rest =>
              let '(bodies, remaining) := drain fuel' rest in (body :: bodies, remaining)
          | Skip rest => drain fuel' rest
          end
      end
  end.

(** Every turn that goes on shortens the buffer, so its length is fuel
    enough (see [drain_fuel_irrelevant]). *)
Definition processBuffer (buffer : string) : list string * string :=
  drain (String.length buffer) buffer.

(** The [data] events of a session: each chunk is appended to the buffer
    and the buffer is drained. *)
Fixpoint feed (buffer : string) (chunks : list string) : list string * string :=
  match chunks with
  | [] => ([], buffer)
  | chunk :: later =>
      let '(bodies, remaining) := processBuffer (buffer ++ chunk) in
      let '(bodies', final) := feed remaining later in
      ((bodies ++ bodies')%list, final)
  end.

(** [Buffer.byteLength]: a code unit below 128 is one byte of UTF-8, the
    others of the 8-bit range are two. *)
Fixpoint Buffer_byteLength (s : string) : nat :=
  match s with
  | EmptyString => 0
  | String c rest =>
      (if Nat.ltb (nat_of_ascii c) 128 then 1 else 2) + Buffer_byteLength rest
  end.

Section Server.
Context {St : Type}.
Variable ALL_TOOLS : list (McpTool St).
Variable JSON_parse : string → option value.
Variable env : Env.
Variable ctx : option AuthContext.

(** What the process has written to standard output, write by write, and
    the state behind [env.db]. *)
Record Session : Type := { stdout : list string; state : St }.

Definition frame (response : JsonRpcResponse) : string :=
  let json := match JSON_stringify (response_value response) with
              | Some t => t
              | None => "undefined"
              end in
  "Content-Length: " ++ nat_to_string (Buffer_byteLength json) ++ CRLF ++ CRLF ++ json.

Definition send (response : JsonRpcResponse) (s : Session) : Session :=
  {| stdout := (stdout s ++ [frame response])%list; state := state s |}.

(** [handleMessage]: a body that does not parse and a rejected
    [handleJsonRpc] both end in the empty [catch]. *)
Definition handleMessage (body : string) (s : Session) : Session :=
  match JSON_parse body with
  | None => s
  | Some req =>
      match handleJsonRpc ALL_TOOLS req ctx env (state s) with
      | (Throw _, st') => {| stdout := stdout s; state := st' |}
      | (Normal response, st') =>
          let s' := {| stdout := stdout s; state := st' |} in
          match prop "id" req with
          | VNull | VUndefined => s'
          | _ => send response s'
          end
      end
  end.

(** A chunk arrives on standard input. *)
Definition on_data (buffer chunk : string) (s : Session) : string * Session :=
  let '(bodies, remaining) := processBuffer (buffer ++ chunk) in
  (remaining, fold_left (fun acc body => handleMessage body acc) bodies s).

End Server.

End Stdio.

(** ** [src/tools/stats.ts] *)

Module Stats.
Local Open Scope Q_scope.






End Stats.

(** ** [src/tools/notes.ts]: [clear_notes] *)

Module Notes.
Import Js Auth Sqlite.

Definition by_id (args : Js.value) : list Filter :=
  [ {| column := "id"; op := op_eq; value := VStr (toString (prop "id" args)) |} ].

(** The filters of a batch: [target_article] when it is neither [null]
    nor [undefined], [status] when it is truthy. *)
Definition batch_filters (args : Js.value) : list Filter :=
  (match prop "target_article" args with
   | VNull | VUndefined => []
   | t => [ {| column := "target_article"; op := op_eq; value := VStr (toString t) |} ]
   end
   ++
   if truthy (prop "status" args)
   then [ {| column := "status"; op := op_eq;
             value := VStr (toString (prop "status" args)) |} ]
   else [])%list.

Definition plain_error (code : Z) (message : string) : thrown :=
  ThrownValue (VObj [("code", VNum code); ("message", VStr message)]).

(** The handler of [clear_notes]; the state is the database behind
    [env.db]. *)
Definition clear_notes (args : Js.value) (ctx : option AuthContext) (env : Mcp.Env)
    (db : Database) : completion Js.value * Database :=
  match requireOwner ctx with
  | Throw e => (Throw e, db)
  | Normal _ =>
      let confirm := truthy (prop "confirm" args) in
      if truthy (prop "id" args) then
        match delete "editorial_notes" (by_id args) db with
        | (Throw e, db') => (Throw e, db')
        | (Normal [], db') => (Throw (plain_error 404 "Note not found"), db')
        | (Normal (_ :: _), db') =>
            (Normal (VObj [("deleted", VNum 1); ("message", VStr "Note deleted")]), db')
        end
      else
        match batch_filters args with
        | [] =>
            (Throw (plain_error 400
                      "Provide id, target_article, or status to specify what to delete"),
             db)
        | fs =>
            match count "editorial_notes" (Some fs) db with
            | Throw e => (Throw e, db)
            | Normal 0 =>
                (Normal (VObj [("deleted", VNum 0);
                               ("message", VStr "No matching notes found")]), db)
            | Normal n =>
                if negb confirm then
                  (Normal (VObj [("preview", VBool true);
                                 ("count", VNum (Z.of_nat n));
                                 ("message",
                                  VStr (nat_to_string n ++
                                        " note(s) will be deleted. Call again with confirm: true to proceed."))]),
                   db)
                else
                  match delete "editorial_notes" fs db with
                  | (Throw e, db') => (Throw e, db')
                  | (Normal _, db') =>
                      (Normal (VObj [("deleted", VNum (Z.of_nat n));
                                     ("message",
                                      VStr (nat_to_string n ++ " note(s) cleared."))]),
                       db')
                  end
            end
        end
  end.

Definition clear_notes_tool : Mcp.McpTool Database :=
  {| Mcp.name := "clear_notes";
     Mcp.description :=
       "Delete notes by ID, by article, or batch by status. Batch requires confirm=true. Owner only.";
     Mcp.inputSchema :=
       VObj [("type", VStr "object");
             ("properties",
              VObj [("id", VObj [("type", VStr "string");
                                 ("description", VStr "Delete a single note by UUID")]);
                    ("target_article",
                     VObj [("type", VStr "string");
                           ("description", VStr "Delete all notes for this article")]);
                    ("status",
                     VObj [("type", VStr "string");
                           ("enum", VArr [VStr "used"; VStr "discarded"]);
                           ("description", VStr "Delete all notes with this status")]);
                    ("confirm",
                     VObj [("type", VStr "boolean");
                           ("description", VStr "Confirm batch deletion");
                           ("default", VBool false)])])];
     Mcp.handler := clear_notes |}.

End Notes.

(** ** [src/config.ts] *)

Module Config.
Import Js.

Inductive DatabaseType : Type := sqlite | supabase.

Record DatabaseConfig : Type :=
  { db_type : DatabaseType;
    path : option string;
    supabaseUrl : option string;
    supabaseKey : option string }.

Record AuthConfig : Type := { enabled : bool; ownerKey : option string }.

Record TagPattern : Type :=
  { tag_name : string; tag_category : string; tag_pattern : string }.

Record InkwellConfig : Type :=
  { name : string;
    description : string;
    watermark : string;
    database : DatabaseConfig;
    auth : AuthConfig;
    tagPatterns : option (list TagPattern) }.

(** [Partial<InkwellConfig>]: a key is present with a value, or absent. *)
Record Overrides : Type :=
  { o_name : option string;
    o_description : option string;
    o_watermark : option string;
    o_database : option DatabaseConfig;
    o_auth : option AuthConfig;
    o_tagPatterns : option (list TagPattern) }.

Definition DEFAULT_CONFIG : InkwellConfig :=
  {| name := "Inkwell Newsletter";
     description := "Editorial intelligence MCP server";
     watermark := "Source: Inkwell MCP";
     database := {| db_type := sqlite; path := Some "./data/inkwell.db";
                    supabaseUrl := None; supabaseKey := None |};
     auth := {| enabled := false; ownerKey := None |};
     tagPatterns := None |}.

(** [{ ...DEFAULT_CONFIG, ...overrides }]: a shallow merge, key by key. *)
Definition spread (overrides : option Overrides) : InkwellConfig :=
  match overrides with
  | None => DEFAULT_CONFIG
  | Some o =>
      {| name := default (name DEFAULT_CONFIG) (o_name o);
         description := default (description DEFAULT_CONFIG) (o_description o);
         watermark := default (watermark DEFAULT_CONFIG) (o_watermark o);
         database := default (database DEFAULT_CONFIG) (o_database o);
         auth := default (auth DEFAULT_CONFIG) (o_auth o);
         tagPatterns := match o_tagPatterns o with
                        | Some t => Some t
                        | None => tagPatterns DEFAULT_CONFIG
                        end |}
  end.

Definition with_path (c : InkwellConfig) (p : string) : InkwellConfig :=
  {| name := name c; description := description c; watermark := watermark c;
     database := {| db_type := db_type (database c); path := Some p;
                    supabaseUrl := supabaseUrl (database c);
                    supabaseKey := supabaseKey (database c) |};
     auth := auth c; tagPatterns := tagPatterns c |}.

Definition loadConfig (overrides : option Overrides) : completion InkwellConfig :=
  let config := spread overrides in
  let config :=
    match db_type (database config) with
    | sqlite =>
        if Auth.key_falsy (path (database config))
        then with_path config "./data/inkwell.db"
        else config
    | supabase => config
    end in
  match db_type (database config) with
  | supabase =>
      if Auth.key_falsy (supabaseUrl (database config))
         || Auth.key_falsy (supabaseKey (database config))
      then Throw (ThrownError "Supabase config requires supabaseUrl and supabaseKey" [])
      else Normal config
  | sqlite => Normal config
  end.

End Config.

(** ** Notions of the specification and sample data

    The predicates in which the properties below are phrased, and the
    concrete stores, requests and tools on which they are evaluated. *)

Section StorageNotions.
Import Js Sqlite.

(** The invariant of the loop: over a list [all] of migrations with
    distinct names, a recorded migration is an applied one. *)
Definition ledger_sound (all : list Migration) (db : Store) : Prop :=
  ∀ m, m ∈ all → recorded_in db m → applied_in db m.

(** A fresh database file. *)
Definition empty_store : Store := {| objects := ∅; ledger := [] |}.

(** A filter with operator [in] and an empty value list. *)
Definition empty_in (f : Filter) : bool :=
  match op f, value f with
  | op_in, VArr [] => true
  | _, _ => false
  end.

(** [opts] with its filter list replaced. *)
Definition with_filters (opts : QueryOptions) (fs : list Filter) : QueryOptions :=
  {| table := table opts; select := select opts; filters := Some fs;
     order := order opts; limit := limit opts; offset := offset opts |}.

Definition published_row : Row :=
  [("id", VStr "a1"); ("status", VStr "published")].

Definition articles_db : Database := {[ "articles" := [published_row] ]}.

Definition status_and_empty_in : list Filter :=
  [ {| column := "status"; op := op_eq; value := VStr "published" |};
    {| column := "id"; op := op_in; value := VArr [] |} ].


(** Sixteen bytes as the random source may give them. *)
Definition sample_random : list Byte.byte :=
  [ Byte.x00; Byte.x01; Byte.x02; Byte.x03; Byte.x0a; Byte.x0b; Byte.x0c; Byte.x0d;
    Byte.x10; Byte.x20; Byte.x7f; Byte.x80; Byte.xa5; Byte.xc3; Byte.xfe; Byte.xff ].

(** A heap with the caller's object at address [0]; it has no id. *)
Definition sample_heap : Heap := {[ 0 := [("title", VStr "Hello"); ("views", VNum 3)] ]}.

End StorageNotions.

Section ProtocolNotions.

(** One length-prefixed frame with the body [hello]. *)
Definition framed_hello : string := "Content-Length: 5" ++ Stdio.CRLF ++ Stdio.CRLF ++ "hello".




(** A tool that counts its calls in the environment state. *)
Definition counting_tool : Mcp.McpTool nat :=
  {| Mcp.name := "touch";
     Mcp.description := "Count a call";
     Mcp.inputSchema := Js.VObj [("type", Js.VStr "object")];
     Mcp.handler := fun _ _ _ st => (Js.Normal (Js.VNum (Z.of_nat (S st))), S st) |}.

Definition sample_env : Mcp.Env :=
  {| Mcp.config := {| Mcp.config_name := "Inkwell Newsletter";
                      Mcp.config_description := "Editorial intelligence MCP server" |} |}.

(** The request [tools/call] for the tool [name] with id [i]. *)
Definition tools_call (i name : Js.value) : Js.value :=
  Js.VObj [("jsonrpc", Js.VStr "2.0"); ("id", i); ("method", Js.VStr "tools/call");
           ("params", Js.VObj [("name", name); ("arguments", Js.VObj [])])].

(** A [ping] without an id and a [tools/call] with a null id. *)
Definition ping_notification : Js.value :=
  Js.VObj [("jsonrpc", Js.VStr "2.0"); ("method", Js.VStr "ping")].

Definition touch_notification : Js.value :=
  Js.VObj [("jsonrpc", Js.VStr "2.0"); ("id", Js.VNull); ("method", Js.VStr "tools/call");
           ("params", Js.VObj [("name", Js.VStr "touch")])].

(** The JSON text of a value. *)
Definition json_text (v : Js.value) : string :=
  match Js.JSON_stringify v with
  | Some t => t
  | None => EmptyString
  end.

(** [JSON.parse] on the texts of the two sample notifications and of one
    request; every other text is rejected. *)
Definition sample_parse (body : string) : option Js.value :=
  if String.eqb body (json_text ping_notification) then Some ping_notification
  else if String.eqb body (json_text touch_notification) then Some touch_notification
  else if String.eqb body (json_text (tools_call (Js.VNum 1) (Js.VStr "touch")))
  then Some (tools_call (Js.VNum 1) (Js.VStr "touch"))
  else None.

End ProtocolNotions.



(** ** Further notions *)

Section MoreStorageNotions.
Import Js Sqlite.

(** The options that select every column of the rows of [tbl] that pass
    [fs], in table order. *)
Definition select_all (tbl : string) (fs : list Filter) : QueryOptions :=
  {| table := tbl; select := None; filters := Some fs;
     order := None; limit := None; offset := None |}.

(** A filter for which [buildWhere] pushes no clause: an [in] whose value
    is not an array with an element. *)
Definition no_clause (f : Filter) : bool :=
  match op f, value f with
  | op_in, VArr (_ :: _) => false
  | op_in, _ => true
  | _, _ => false
  end.


(** The rows of a table; a table that does not exist has none. *)
Definition rows_of (db : Database) (tbl : string) : list Row :=
  match db !! tbl with
  | Some rows => rows
  | None => []
  end.

(** The rows of [tbl] that pass the clauses compiled from [fs]. *)
Definition matching (fs : list Filter) (db : Database) (tbl : string) : list Row :=
  List.filter (eval_where (where_clauses (where_ (buildWhere fs)))
                 (params (buildWhere fs)))
    (rows_of db tbl).





End MoreStorageNotions.

Section MoreSamples.
Import Js Sqlite.

(** Two notes of article 42, one used and one active. *)
Definition used_note : Row :=
  [("id", VStr "n1"); ("target_article", VStr "42"); ("status", VStr "used")].

Definition active_note : Row :=
  [("id", VStr "n2"); ("target_article", VStr "42"); ("status", VStr "active")].

Definition notes_db : Database := {[ "editorial_notes" := [used_note; active_note] ]}.

(** The arguments of a batch over the used notes, and of a call by id. *)
Definition clear_used (confirm : bool) : Js.value :=
  VObj [("status", VStr "used"); ("confirm", VBool confirm)].



End MoreSamples.

Section ConfigSamples.
Import Config.

(** Overrides that give the newsletter its name and nothing else. *)
Definition renamed_overrides : Overrides :=
  {| o_name := Some "The Weekly Ink"; o_description := None; o_watermark := None;
     o_database := None; o_auth := None; o_tagPatterns := None |}.

End ConfigSamples.

Section MoreProtocolNotions.
Import Js Stdio.

(** A length-prefixed message as a client puts it on the wire: the
    header with the number of characters of [body], a blank line, and
    [body]. *)
Definition wire (body : string) : string :=
  "Content-Length: " ++ nat_to_string (String.length body) ++ CRLF ++ CRLF ++ body.

(** [t] is what remains of [s] after some characters at its start. *)
Definition suffix_of (t s : string) : Prop := ∃ n, t = str_drop n s.

(** No character of [s] is a line feed. *)
Definition one_line (s : string) : Prop :=
  Forall (fun c => c ≠ "010"%char) (list_ascii_of_string s).

(** No character of [s] is a carriage return. *)
Definition no_CR (s : string) : Prop :=
  Forall (fun c => c ≠ "013"%char) (list_ascii_of_string s).

End MoreProtocolNotions.

(* ================================================================== *)
(** * Theorems *)
(* ================================================================== *)

(** ** The auth resolver *)

Section AuthFacts.
Import Auth.

(** C7 (as stated, refuted): with an empty configured secret and an empty
    presented secret the two are exactly equal, and the caller is still
    [public]. *)
Lemma resolveAuth_equal_empty_secrets_public :
  let configured := Some EmptyString in
  let presented := Some EmptyString in
  presented = configured ∧
  resolveAuth true configured presented = Some {| role := public |} ∧
  resolveAuth true configured presented ≠ Some {| role := owner |}.
Proof. cbv zeta. split; [reflexivity | split; [reflexivity | discriminate]]. Qed.

Lemma key_falsy_false (k : option string) :
  key_falsy k = false ↔ ∃ s, k = Some s ∧ s ≠ EmptyString.
Proof.
  destruct k as [s|]; simpl.
  - rewrite String.eqb_neq. split.
    + intros H. exists s. split; [reflexivity | exact H].
    + intros (s' & [= <-] & H). exact H.
  - split; [discriminate | intros (s & H & _); discriminate].
Qed.

(** C7 (amended): auth disabled gives [owner]; auth enabled gives
    [public] when a secret is absent, when a secret is empty, or when the
    two differ, and [owner] when the presented secret equals the
    configured one and is not empty. *)
Theorem resolveAuth_roles (authEnabled : bool) (ownerKey providedKey : option string) :
  (authEnabled = false →
     resolveAuth authEnabled ownerKey providedKey = Some {| role := owner |}) ∧
  (authEnabled = true →
     ownerKey = None ∨ providedKey = None ∨ providedKey ≠ ownerKey →
     resolveAuth authEnabled ownerKey providedKey = Some {| role := public |}) ∧
  (authEnabled = true →
     ownerKey = Some EmptyString ∨ providedKey = Some EmptyString →
     resolveAuth authEnabled ownerKey providedKey = Some {| role := public |}) ∧
  (authEnabled = true →
     ∀ secret, secret ≠ EmptyString →
     ownerKey = Some secret → providedKey = Some secret →
     resolveAuth authEnabled ownerKey providedKey = Some {| role := owner |}).
Proof.
  unfold resolveAuth. repeat split.
  - intros ->. reflexivity.
  - intros -> H. simpl.
    destruct providedKey as [p|], ownerKey as [o|]; simpl;
      rewrite ?orb_true_r; try reflexivity.
    destruct (String.eqb p EmptyString), (String.eqb o EmptyString); simpl;
      try reflexivity.
    destruct (String.eqb_spec p o) as [->|]; [| reflexivity].
    destruct H as [H | [H | H]]; [discriminate | discriminate | congruence].
  - intros -> [-> | ->]; simpl.
    + rewrite orb_true_r. reflexivity.
    + reflexivity.
  - intros -> secret Hne -> ->. simpl.
    apply String.eqb_neq in Hne. rewrite Hne. simpl.
    rewrite String.eqb_refl. reflexivity.
Qed.

Lemma resolveAuth_roles_witness :
  resolveAuth false None None = Some {| role := owner |} ∧
  resolveAuth true (Some "s3cret") (Some "guess") = Some {| role := public |} ∧
  resolveAuth true (Some "s3cret") (Some EmptyString) = Some {| role := public |} ∧
  resolveAuth true (Some "s3cret") (Some "s3cret") = Some {| role := owner |}.
Proof.
  split; [| split; [| split]].
  - exact (proj1 (resolveAuth_roles false None None) eq_refl).
  - refine (proj1 (proj2 (resolveAuth_roles true (Some "s3cret") (Some "guess")))
              eq_refl _).
    right. right. discriminate.
  - refine (proj1 (proj2 (proj2
              (resolveAuth_roles true (Some "s3cret") (Some EmptyString))))
              eq_refl _).
    right. reflexivity.
  - refine (proj2 (proj2 (proj2
              (resolveAuth_roles true (Some "s3cret") (Some "s3cret"))))
              eq_refl "s3cret" _ eq_refl eq_refl).
    discriminate.
Defined.

End AuthFacts.

(** ** The migration runner *)

Section MigrateFacts.
Import Js Sqlite.

Lemma exec_ledger script f db :
  ledger (exec script f db).2 = ledger db.
Proof.
  revert f db. induction script as [|s rest IH]; intros f db; simpl; [reflexivity|].
  destruct (tick f) as [f'|]; [| reflexivity].
  rewrite IH. reflexivity.
Qed.

Lemma exec_objects_mono script f db :
  objects db ⊆ objects (exec script f db).2.
Proof.
  revert f db. induction script as [|s rest IH]; intros f db; simpl; [set_solver|].
  destruct (tick f) as [f'|]; [| set_solver].
  etrans; [| apply IH]. simpl. set_solver.
Qed.

Lemma exec_normal_applied script f db u f' db' :
  exec script f db = (Normal u, f', db') →
  ∀ s, s ∈ script → stmt_object s ∈ objects db'.
Proof.
  revert f db. induction script as [|s0 rest IH]; intros f db H s Hs.
  - inversion Hs.
  - simpl in H. destruct (tick f) as [f1|]; [| discriminate].
    apply elem_of_cons in Hs as [-> | Hs].
    + pose proof (exec_objects_mono rest f1 (run_stmt s0 db)) as Hm.
      rewrite H in Hm. simpl in Hm. set_solver.
    + eapply IH; eassumption.
Qed.

Lemma exec_no_fault script db :
  ∃ db', exec script None db = (Normal tt, None, db').
Proof.
  revert db. induction script as [|s rest IH]; intros db; simpl; eauto.
Qed.

Lemma insert_ledger_objects n f db :
  objects (insert_ledger n f db).2 = objects db.
Proof.
  unfold insert_ledger. destruct (tick f); [| reflexivity].
  destruct (decide (n ∈ ledger db)); reflexivity.
Qed.

Lemma insert_ledger_normal n f db u f' db' :
  insert_ledger n f db = (Normal u, f', db') →
  ledger db' = (ledger db ++ [n])%list ∧ objects db' = objects db.
Proof.
  unfold insert_ledger. destruct (tick f); [| discriminate].
  destruct (decide (n ∈ ledger db)); [discriminate|].
  intros [= <- <- <-]. split; reflexivity.
Qed.

Lemma insert_ledger_throw n f db e f' db' :
  insert_ledger n f db = (Throw e, f', db') → db' = db.
Proof.
  unfold insert_ledger. destruct (tick f); [| congruence].
  destruct (decide (n ∈ ledger db)); congruence.
Qed.

Lemma applied_in_mono db db' m :
  objects db ⊆ objects db' → applied_in db m → applied_in db' m.
Proof. unfold applied_in. intros Hsub H s Hs. apply Hsub, H, Hs. Qed.

Lemma names_inj (all : list Migration) (m m' : Migration) :
  NoDup (name <$> all) → m ∈ all → m' ∈ all → name m = name m' → m = m'.
Proof.
  induction all as [|a rest IH]; intros Hnd Hm Hm' Heq.
  - inversion Hm.
  - rewrite fmap_cons in Hnd. apply NoDup_cons in Hnd as [Hnot Hnd].
    apply elem_of_cons in Hm as [-> | Hm], Hm' as [-> | Hm'].
    + reflexivity.
    + exfalso. apply Hnot. rewrite Heq. apply list_elem_of_fmap. eauto.
    + exfalso. apply Hnot. rewrite <- Heq. apply list_elem_of_fmap. eauto.
    + apply IH; assumption.
Qed.

Lemma apply_pending_sound all applied ms f db :
  NoDup (name <$> all) → ms ⊆ all →
  ledger_sound all db → ledger_sound all (store (apply_pending applied ms f db)).
Proof.
  intros Hnd. revert f db.
  induction ms as [|m rest IH]; intros f db Hsub Hinv; simpl; [exact Hinv|].
  assert (Hrest : rest ⊆ all) by set_solver.
  assert (Hm : m ∈ all) by set_solver.
  destruct (decide (name m ∈ applied)); [apply IH; assumption|].
  destruct (exec (sql m) f db) as [[o1 f1] db1] eqn:E1.
  assert (Hsound1 : ledger_sound all db1).
  { intros m' Hm' Hrec.
    pose proof (exec_ledger (sql m) f db) as Hl.
    pose proof (exec_objects_mono (sql m) f db) as Ho.
    rewrite E1 in Hl, Ho. simpl in Hl, Ho.
    apply (applied_in_mono db); [exact Ho|].
    apply Hinv; [exact Hm'|]. unfold recorded_in in *. rewrite <- Hl. exact Hrec. }
  destruct o1 as [u|e]; [| exact Hsound1].
  destruct (insert_ledger (name m) f1 db1) as [[o2 f2] db2] eqn:E2.
  destruct o2 as [u2|e2]; simpl.
  - apply IH; [exact Hrest|].
    apply insert_ledger_normal in E2 as [Hl2 Ho2].
    intros m' Hm' Hrec. unfold recorded_in in Hrec. rewrite Hl2 in Hrec.
    apply elem_of_app in Hrec as [Hrec | Hrec].
    + apply (applied_in_mono db1); [rewrite Ho2; reflexivity|].
      apply Hsound1; assumption.
    + apply list_elem_of_singleton in Hrec.
      assert (m' = m) as -> by (eapply names_inj; eassumption).
      intros s Hs. rewrite Ho2. eapply exec_normal_applied; eassumption.
  - apply insert_ledger_throw in E2 as ->. exact Hsound1.
Qed.

Lemma MIGRATIONS_names_distinct : NoDup (name <$> MIGRATIONS).
Proof.
  apply (bool_decide_unpack _). vm_compute. reflexivity.
Qed.

(** C3 (as stated, refuted): a failure of the second statement of the
    first script leaves [001_core.sql] with its first table created, its
    other objects missing and no ledger row: applied in part and not
    recorded. *)
Lemma migrate_failure_leaves_partial_unrecorded :
  let r := migrate (Some 2) {| objects := ∅; ledger := [] |} in
  ∃ m e, m ∈ MIGRATIONS ∧ outcome r = Throw e ∧
         touched_in (store r) m ∧ ¬ applied_in (store r) m ∧
         ¬ recorded_in (store r) m.
Proof.
  cbv zeta.
  assert (Hrun : store (migrate (Some 2) {| objects := ∅; ledger := [] |}) =
                 {| objects := {["articles"]} ∪ ({["_migrations"]} ∪ ∅);
                    ledger := [] |} ∧
                 outcome (migrate (Some 2) {| objects := ∅; ledger := [] |}) =
                 Throw (SqliteError "SQLITE_ERROR" "statement failed")).
  { unfold migrate, migrate_over, MIGRATIONS.
    cbn [exec tick run_stmt stmt_object objects ledger apply_pending name sql].
    case_decide as Hin; [set_solver|]. split; reflexivity. }
  destruct Hrun as [-> ->].
  exists (hd {| name := EmptyString; sql := [] |} MIGRATIONS). eexists.
  split; [simpl; set_solver|]. split; [reflexivity|]. split; [| split].
  - exists (CreateTable "articles"). split; simpl; set_solver.
  - intros H. specialize (H (CreateTable "experts")). simpl in H.
    assert (Hx : "experts" ∈ ({["articles"]} ∪ ({["_migrations"]} ∪ ∅) : gset string))
      by (apply H; set_solver).
    rewrite !elem_of_union, !elem_of_singleton, elem_of_empty in Hx.
    destruct Hx as [? | [? | []]]; discriminate.
  - unfold recorded_in. simpl. set_solver.
Qed.

(** A run of the loop that throws stops at the migration it was
    applying, and that migration has no ledger row. *)
Lemma apply_pending_throw_unrecorded applied ms f db e :
  NoDup (name <$> ms) →
  (∀ m, m ∈ ms → name m ∉ applied → name m ∉ ledger db) →
  outcome (apply_pending applied ms f db) = Throw e →
  ∃ n, last (executed (apply_pending applied ms f db)) = Some n ∧
       n ∉ ledger (store (apply_pending applied ms f db)).
Proof.
  revert f db. induction ms as [|m rest IH]; intros f db Hnd Hfresh; simpl.
  - discriminate.
  - rewrite fmap_cons in Hnd. apply NoDup_cons in Hnd as [Hnot Hnd].
    destruct (decide (name m ∈ applied)) as [Hin|Hout].
    + apply IH; [exact Hnd|]. intros m' Hm'. apply Hfresh. set_solver.
    + assert (Hm : name m ∉ ledger db) by (apply Hfresh; [set_solver | exact Hout]).
      destruct (exec (sql m) f db) as [[o1 f1] db1] eqn:E1.
      pose proof (exec_ledger (sql m) f db) as Hl1. rewrite E1 in Hl1. simpl in Hl1.
      destruct o1 as [u|e1]; simpl.
      * destruct (insert_ledger (name m) f1 db1) as [[o2 f2] db2] eqn:E2.
        destruct o2 as [u2|e2]; simpl.
        -- apply insert_ledger_normal in E2 as [Hl2 _]. intros Hthrow.
           destruct (IH f2 db2 Hnd) as (n & Hlast & Hn); [| exact Hthrow |].
           { intros m' Hm' Hout'. rewrite Hl2, Hl1.
             rewrite elem_of_app, list_elem_of_singleton. intros [Hin | Heq].
             - revert Hin. apply Hfresh; [set_solver | exact Hout'].
             - apply Hnot. rewrite <- Heq. apply list_elem_of_fmap. eauto. }
           exists n. split; [| exact Hn].
           destruct (executed (apply_pending applied rest f2 db2)) as [|x xs];
             [discriminate | exact Hlast].
        -- intros _. apply insert_ledger_throw in E2 as ->.
           exists (name m). split; [reflexivity | rewrite Hl1; exact Hm].
      * intros _. exists (name m). split; [reflexivity | rewrite Hl1; exact Hm].
Qed.

(** C3 (amended): [migrate] runs a pending script and then inserts its
    ledger row as two separate steps. Whenever and however a run fails, a
    migration that is recorded has its script applied in full
    (recorded-but-unapplied is not reachable), and the migration at which
    the run failed is left without a ledger row, whatever part of its
    script has run. *)
Theorem migrate_recorded_implies_applied (f : Fault) (db : Store) :
  (∀ m, m ∈ MIGRATIONS → recorded_in db m → applied_in db m) →
  (∀ m, m ∈ MIGRATIONS →
     recorded_in (store (migrate f db)) m → applied_in (store (migrate f db)) m) ∧
  (∀ e, outcome (migrate f db) = Throw e →
     executed (migrate f db) = [] ∨
     ∃ n, last (executed (migrate f db)) = Some n ∧ n ∉ ledger (store (migrate f db))).
Proof.
  intros Hinv. split.
  - change (ledger_sound MIGRATIONS (store (migrate f db))).
    unfold migrate, migrate_over.
    destruct (exec [CreateTable "_migrations"] f db) as [[o0 f0] db0] eqn:E0.
    assert (Hsound0 : ledger_sound MIGRATIONS db0).
    { intros m' Hm' Hrec.
      pose proof (exec_ledger [CreateTable "_migrations"] f db) as Hl.
      pose proof (exec_objects_mono [CreateTable "_migrations"] f db) as Ho.
      rewrite E0 in Hl, Ho. simpl in Hl, Ho.
      apply (applied_in_mono db); [exact Ho|].
      apply Hinv; [exact Hm'|]. unfold recorded_in in *. rewrite <- Hl. exact Hrec. }
    destruct o0 as [u|e]; [| exact Hsound0].
    apply apply_pending_sound;
      [apply MIGRATIONS_names_distinct | reflexivity | exact Hsound0].
  - intros e. unfold migrate, migrate_over.
    destruct (exec [CreateTable "_migrations"] f db) as [[o0 f0] db0] eqn:E0.
    destruct o0 as [u|e0]; [| left; reflexivity].
    intros Hthrow. right.
    apply (apply_pending_throw_unrecorded _ _ _ _ e);
      [apply MIGRATIONS_names_distinct | | exact Hthrow].
    intros m _ Hout Hin. apply Hout. apply elem_of_list_to_set. exact Hin.
Qed.

Lemma migrate_recorded_implies_applied_witness :
  applied_in (store (migrate None empty_store))
    {| name := "001_core.sql";
       sql := sql (hd {| name := EmptyString; sql := [] |} MIGRATIONS) |}.
Proof.
  apply (proj1 (migrate_recorded_implies_applied None empty_store
                  ltac:(intros m _ Hrec; inversion Hrec))).
  - simpl. apply list_elem_of_here.
  - unfold recorded_in. vm_compute. apply list_elem_of_here.
Defined.

Lemma apply_pending_skips applied ms f db :
  (∀ m, m ∈ ms → name m ∈ applied) →
  apply_pending applied ms f db =
  {| outcome := Normal tt; store := db; executed := [] |}.
Proof.
  induction ms as [|m rest IH]; intros Hall; simpl; [reflexivity|].
  rewrite decide_True by (apply Hall; set_solver).
  apply IH. intros m' Hm'. apply Hall. set_solver.
Qed.

(** A run that meets no failure completes, keeps what was there and
    records every migration it visits. *)
Lemma apply_pending_no_fault applied ms db :
  NoDup (name <$> ms) →
  (∀ m, m ∈ ms → name m ∉ applied → name m ∉ ledger db) →
  let r := apply_pending applied ms None db in
  outcome r = Normal tt ∧
  objects db ⊆ objects (store r) ∧
  ledger db ⊆ ledger (store r) ∧
  (∀ m, m ∈ ms → name m ∈ applied ∨ name m ∈ ledger (store r)).
Proof.
  revert db. induction ms as [|m rest IH]; intros db Hnd Hfresh; simpl.
  - repeat split; [set_solver | set_solver | intros m Hm; inversion Hm].
  - rewrite fmap_cons in Hnd. apply NoDup_cons in Hnd as [Hnot Hnd].
    destruct (decide (name m ∈ applied)) as [Hin|Hout].
    + destruct (IH db Hnd) as (Ho & Hobj & Hled & Hall).
      { intros m' Hm'. apply Hfresh. set_solver. }
      repeat split; try assumption.
      intros m' Hm'.
      apply elem_of_cons in Hm' as [-> | Hm']; [left; exact Hin | apply Hall, Hm'].
    + destruct (exec_no_fault (sql m) db) as [db1 E1]. rewrite E1.
      pose proof (exec_ledger (sql m) None db) as Hl1.
      pose proof (exec_objects_mono (sql m) None db) as Ho1.
      rewrite E1 in Hl1, Ho1. simpl in Hl1, Ho1.
      unfold insert_ledger. simpl.
      rewrite decide_False by (rewrite Hl1; apply Hfresh; [set_solver | exact Hout]).
      simpl.
      destruct (IH {| objects := objects db1; ledger := ledger db1 ++ [name m] |} Hnd)
        as (Ho & Hobj & Hled & Hall).
      { simpl. intros m' Hm' Hout'. rewrite Hl1.
        rewrite elem_of_app, list_elem_of_singleton. intros [Hin | Heq].
        - revert Hin. apply Hfresh; [set_solver | exact Hout'].
        - apply Hnot. rewrite <- Heq. apply list_elem_of_fmap. eauto. }
      simpl in Hobj, Hled.
      repeat split.
      * exact Ho.
      * etrans; [exact Ho1 | exact Hobj].
      * etrans; [| exact Hled]. rewrite Hl1. set_solver.
      * intros m' Hm'. apply elem_of_cons in Hm' as [-> | Hm'].
        -- right. apply Hled. set_solver.
        -- apply Hall, Hm'.
Qed.

(** C8: from any store, a run of [migrate] followed by a second run: the
    first completes, the second hands no script to the database and
    leaves the store, hence the ledger and its number of rows, as the
    first run left it. *)
Theorem migrate_twice_idempotent (db : Store) :
  let first := migrate None db in
  let second := migrate None (store first) in
  outcome first = Normal tt ∧
  outcome second = Normal tt ∧
  executed second = [] ∧
  store second = store first ∧
  length (ledger (store second)) = length (ledger (store first)).
Proof.
  cbv zeta.
  assert (Hfirst : outcome (migrate None db) = Normal tt ∧
                   "_migrations" ∈ objects (store (migrate None db)) ∧
                   ∀ m, m ∈ MIGRATIONS → name m ∈ ledger (store (migrate None db))).
  { unfold migrate, migrate_over.
    cbn [exec tick run_stmt stmt_object objects ledger].
    set (db0 := {| objects := {["_migrations"]} ∪ objects db; ledger := ledger db |}).
    destruct (apply_pending_no_fault (list_to_set (ledger db0)) MIGRATIONS db0)
      as (Ho & Hobj & Hled & Hall).
    - apply MIGRATIONS_names_distinct.
    - intros m _ Hout Hin. apply Hout. apply elem_of_list_to_set. exact Hin.
    - split; [exact Ho|]. split.
      + apply Hobj. subst db0. simpl. set_solver.
      + intros m Hm. destruct (Hall m Hm) as [Hin | Hin]; [| exact Hin].
        apply Hled. apply elem_of_list_to_set in Hin. exact Hin. }
  destruct Hfirst as (Ho1 & Hmig & Hrec).
  set (db1 := store (migrate None db)) in *.
  assert (Hsecond : migrate None db1 =
                    {| outcome := Normal tt; store := db1; executed := [] |}).
  { unfold migrate, migrate_over.
    cbn [exec tick run_stmt stmt_object objects ledger].
    assert (Hsame : run_stmt (CreateTable "_migrations") db1 = db1).
    { unfold run_stmt. destruct db1 as [objs led]. simpl in *. f_equal. set_solver. }
    rewrite Hsame. apply apply_pending_skips.
    intros m Hm. apply elem_of_list_to_set. apply Hrec, Hm. }
  rewrite Hsecond. simpl. repeat split; try reflexivity. exact Ho1.
Qed.

Example migrate_fresh_store_records_all :
  ledger (store (migrate None empty_store))
  = ["001_core.sql"; "002_editorial.sql"; "003_usage.sql"]
  ∧ executed (migrate None empty_store)
  = ["001_core.sql"; "002_editorial.sql"; "003_usage.sql"].
Proof. split; vm_compute; reflexivity. Qed.

End MigrateFacts.

(** ** Queries with an empty [in] list *)

Section QueryFacts.
Import Js Sqlite.

Example status_and_empty_in_text :
  where_text (where_ (buildWhere status_and_empty_in)) = "WHERE status = ?"
  ∧ params (buildWhere status_and_empty_in) = [VStr "published"].
Proof. split; reflexivity. Qed.

Example in_list_text :
  where_text (where_ (buildWhere
    [ {| column := "id"; op := op_in; value := VArr [VStr "a"; VStr "b"] |};
      {| column := "n"; op := op_is; value := VNull |} ]))
  = "WHERE id IN (?, ?) AND n IS NULL".
Proof. reflexivity. Qed.

(** With the empty [in] filter alone the text is [WHERE] and nothing
    after it, which SQLite refuses. *)
Example only_empty_in_does_not_parse :
  ∃ e, query {| table := "articles"; select := None;
                filters := Some [ {| column := "id"; op := op_in; value := VArr [] |} ];
                order := None; limit := None; offset := None |} articles_db = Throw e.
Proof. eexists. vm_compute. reflexivity. Qed.

(** C1 (as stated, refuted): a filter list with a status filter and an
    [in] filter on an empty list, over a table with one published row:
    the [in] filter is dropped and the row comes back. *)
Lemma query_empty_in_returns_rows :
  let opts := {| table := "articles"; select := None;
                 filters := Some status_and_empty_in;
                 order := None; limit := None; offset := None |} in
  (∃ f, f ∈ status_and_empty_in ∧ empty_in f = true) ∧
  query opts articles_db = Normal [published_row] ∧
  query opts articles_db ≠ Normal [].
Proof.
  cbv zeta. split; [| split].
  - exists {| column := "id"; op := op_in; value := VArr [] |}.
    split; [set_solver | reflexivity].
  - vm_compute. reflexivity.
  - vm_compute. discriminate.
Qed.

Lemma empty_in_no_clause f : empty_in f = true → filter_clauses f = ([], []).
Proof.
  unfold empty_in, filter_clauses.
  destruct (op f); try discriminate.
  destruct (value f) as [| | | | |[|x xs]|]; try discriminate. reflexivity.
Qed.

Lemma flat_map_drop_empty_in {B} (g : Filter → list B) (fs : list Filter) :
  (∀ f, empty_in f = true → g f = []) →
  flat_map g (List.filter (fun f => negb (empty_in f)) fs) = flat_map g fs.
Proof.
  intros Hg. induction fs as [|f rest IH]; simpl; [reflexivity|].
  destruct (empty_in f) eqn:E; simpl.
  - rewrite (Hg f E). exact IH.
  - rewrite IH. reflexivity.
Qed.

Lemma buildWhere_drops_empty_in (fs : list Filter) :
  List.filter (fun f => negb (empty_in f)) fs ≠ [] →
  buildWhere (List.filter (fun f => negb (empty_in f)) fs) = buildWhere fs.
Proof.
  intros Hne.
  assert (Hfs : fs ≠ []) by (intros ->; apply Hne; reflexivity).
  unfold buildWhere.
  destruct (List.filter (fun f => negb (empty_in f)) fs) as [|k kept] eqn:Ek;
    [congruence|].
  destruct fs as [|f rest]; [congruence|].
  rewrite <- Ek.
  rewrite !flat_map_drop_empty_in; [reflexivity | |];
    intros f' Hf'; rewrite (empty_in_no_clause f' Hf'); reflexivity.
Qed.

(** C1 (amended): an [in] filter with an empty value list compiles to no
    clause and binds no parameter. When some other filter is left, the
    query is the query without the empty [in] filters: it returns the
    rows that the remaining filters select. *)
Theorem query_drops_empty_in (opts : QueryOptions) (fs : list Filter) (db : Database) :
  filters opts = Some fs →
  List.filter (fun f => negb (empty_in f)) fs ≠ [] →
  query opts db =
  query (with_filters opts (List.filter (fun f => negb (empty_in f)) fs)) db.
Proof.
  intros Hfs Hne. unfold query, buildSelect, with_filters. simpl.
  rewrite Hfs, (buildWhere_drops_empty_in fs Hne). reflexivity.
Qed.

Lemma query_drops_empty_in_witness :
  query {| table := "articles"; select := None;
           filters := Some status_and_empty_in;
           order := None; limit := None; offset := None |} articles_db =
  query {| table := "articles"; select := None;
           filters := Some [ {| column := "status"; op := op_eq;
                                value := VStr "published" |} ];
           order := None; limit := None; offset := None |} articles_db.
Proof.
  apply (query_drops_empty_in
           {| table := "articles"; select := None;
              filters := Some status_and_empty_in;
              order := None; limit := None; offset := None |}
           status_and_empty_in articles_db).
  - reflexivity.
  - simpl. discriminate.
Defined.

End QueryFacts.

(** ** [insert] and the caller's object *)

Section InsertFacts.
Import Js Sqlite.


Lemma join_empty_cons (p : string) (rest : list string) :
  join EmptyString (p :: rest) = p ++ join EmptyString rest.
Proof.
  destruct rest as [|q rest]; simpl; [| reflexivity].
  induction p as [|c p IH]; simpl; [reflexivity | f_equal; exact IH].
Qed.

Lemma string_length_app (a b : string) :
  String.length (a ++ b) = String.length a + String.length b.
Proof. induction a as [|c a IH]; simpl; [reflexivity | rewrite IH; reflexivity]. Qed.








Example generateId_sample :
  generateId sample_random = "000102030a0b0c0d10207f80a5c3feff".
Proof. reflexivity. Qed.


Example insert_returns_stored_row :
  (insert "articles" 0 sample_random sample_heap articles_db).1.1 =
  Normal [("title", VStr "Hello"); ("views", VNum 3);
          ("id", VStr "000102030a0b0c0d10207f80a5c3feff")].
Proof. vm_compute. reflexivity. Qed.

End InsertFacts.

(** ** The transport framer *)

Section FramerFacts.
Import Js Stdio.

Lemma str_drop_length (n : nat) (s : string) :
  String.length (str_drop n s) = String.length s - n.
Proof.
  revert s. induction n as [|n IH]; intros [|c s]; simpl; try reflexivity.
  apply IH.
Qed.

Lemma line_turn_shortens buffer :
  match line_turn buffer with
  | Wait => True
  | Message _ rest | Skip rest =>
      buffer ≠ EmptyString → String.length rest < String.length buffer
  end.
Proof.
  unfold line_turn. destruct (String.index 0 LF buffer) as [lineEnd|]; [| exact I].
  assert (H : buffer ≠ EmptyString →
              String.length (str_drop (lineEnd + 1) buffer) < String.length buffer).
  { intros Hne. rewrite str_drop_length. destruct buffer; [congruence | simpl; lia]. }
  destruct (trim (str_take lineEnd buffer)); exact H.
Qed.

Lemma turn_shortens buffer :
  match turn buffer with
  | Wait => True
  | Message _ rest | Skip rest =>
      buffer ≠ EmptyString → String.length rest < String.length buffer
  end.
Proof.
  unfold turn.
  destruct (String.index 0 (CRLF ++ CRLF) buffer) as [headerEnd|];
    [| apply line_turn_shortens].
  destruct (header_match (str_take headerEnd buffer)) as [digits|];
    [| apply line_turn_shortens].
  destruct (Nat.ltb _ _); [exact I|].
  intros Hne. rewrite str_drop_length. destruct buffer; [congruence | simpl; lia].
Qed.

(** From what [turn_shortens] says of the turn just taken: the buffer
    that is left is shorter than [String c b]. *)
Ltac shorter Hs :=
  match type of Hs with
  | _ ≠ _ → String.length ?rest < String.length ?buffer =>
      assert (String.length rest < String.length buffer) by (apply Hs; discriminate)
  end.

(** The loop never stops for want of fuel: any two amounts that are at
    least the length of the buffer give the same run. *)
Lemma drain_fuel_irrelevant (fuel fuel' : nat) (buffer : string) :
  (String.length buffer ≤ fuel)%nat → (String.length buffer ≤ fuel')%nat →
  drain fuel buffer = drain fuel' buffer.
Proof.
  revert fuel' buffer. induction fuel as [|fuel IH]; intros fuel' buffer H H'.
  - destruct buffer; [| simpl in H; lia]. destruct fuel'; reflexivity.
  - destruct fuel' as [|fuel'].
    + destruct buffer; [reflexivity | simpl in H'; lia].
    + simpl. destruct buffer as [|c b]; [reflexivity|].
      pose proof (turn_shortens (String c b)) as Hs.
      destruct (turn (String c b)) as [|body rest|rest]; [reflexivity | |].
      * shorter Hs. simpl in *. rewrite (IH fuel' rest); [reflexivity | lia | lia].
      * shorter Hs. simpl in *. apply IH; lia.
Qed.

(** When the loop ends, the buffer is empty or the next turn waits for
    more input. *)
Lemma drain_settles (fuel : nat) (buffer : string) :
  (String.length buffer ≤ fuel)%nat →
  (drain fuel buffer).2 = EmptyString ∨ turn (drain fuel buffer).2 = Wait.
Proof.
  revert buffer. induction fuel as [|fuel IH]; intros buffer H.
  - destruct buffer; [left; reflexivity | simpl in H; lia].
  - simpl. destruct buffer as [|c b]; [left; reflexivity|].
    pose proof (turn_shortens (String c b)) as Hs.
    destruct (turn (String c b)) as [|body rest|rest] eqn:E.
    + right. exact E.
    + shorter Hs. simpl in *. specialize (IH rest ltac:(lia)).
      destruct (drain fuel rest) as [bodies remaining]. exact IH.
    + shorter Hs. simpl in *. apply IH. lia.
Qed.

Lemma processBuffer_settles (buffer : string) :
  (processBuffer buffer).2 = EmptyString ∨ turn (processBuffer buffer).2 = Wait.
Proof. apply drain_settles. reflexivity. Qed.

(** The second half of C2 holds: with a header in the buffer and fewer
    body characters than it announces, nothing is extracted and nothing
    is consumed. *)
Lemma processBuffer_waits_for_body (buffer digits : string) (headerEnd : nat) :
  String.index 0 (CRLF ++ CRLF) buffer = Some headerEnd →
  header_match (str_take headerEnd buffer) = Some digits →
  String.length buffer - (headerEnd + 4) < parseInt digits →
  processBuffer buffer = ([], buffer).
Proof.
  intros Hidx Hmatch Hshort. unfold processBuffer.
  destruct buffer as [|c b]; [reflexivity|].
  cbn [String.length drain]. unfold turn. rewrite Hidx, Hmatch.
  apply Nat.ltb_lt in Hshort. rewrite Hshort. reflexivity.
Qed.

(** A chunk boundary after the header, inside the body, does not show:
    the first chunk is kept whole and the second completes it. *)
Lemma split_inside_body_is_invisible (first second digits : string) (headerEnd : nat) :
  String.index 0 (CRLF ++ CRLF) first = Some headerEnd →
  header_match (str_take headerEnd first) = Some digits →
  String.length first - (headerEnd + 4) < parseInt digits →
  feed EmptyString [first; second] = feed EmptyString [first ++ second].
Proof.
  intros Hidx Hmatch Hshort.
  cbn [feed]. change (EmptyString ++ first) with first.
  change (EmptyString ++ (first ++ second)) with (first ++ second).
  rewrite (processBuffer_waits_for_body first digits headerEnd Hidx Hmatch Hshort).
  destruct (processBuffer (first ++ second)) as [bodies remaining]. reflexivity.
Qed.

(** C2 (the code departs from it): the frame [Content-Length: 5],
    blank line, [hello] delivered whole gives the body [hello]; delivered
    as the chunk that ends after the header line and the chunk with the
    rest, the header line itself is taken for a line-delimited message
    and the body never comes out. *)
Theorem split_inside_header_loses_message :
  let first := "Content-Length: 5" ++ CRLF in
  let second := CRLF ++ "hello" in
  first ++ second = framed_hello ∧
  feed EmptyString [framed_hello] = (["hello"], EmptyString) ∧
  feed EmptyString [first; second] = (["Content-Length: 5"], "hello") ∧
  (feed EmptyString [first; second]).1 ≠ (feed EmptyString [framed_hello]).1.
Proof.
  cbv zeta. split; [reflexivity|]. split; [vm_compute; reflexivity|].
  split; [vm_compute; reflexivity|]. vm_compute. discriminate.
Qed.

Example split_inside_body_keeps_message :
  feed EmptyString ["Content-Length: 5" ++ CRLF ++ CRLF ++ "he"; "llo"]
  = (["hello"], EmptyString).
Proof. vm_compute. reflexivity. Qed.

Example two_frames_one_chunk :
  feed EmptyString
    ["Content-Length: 2" ++ CRLF ++ CRLF ++ "{}" ++ "content-length:  3" ++ CRLF ++ CRLF ++ "[1]"]
  = (["{}"; "[1]"], EmptyString).
Proof. vm_compute. reflexivity. Qed.

End FramerFacts.

(** ** The dispatcher *)



Section DispatcherFacts.
Import Js Auth Mcp.
Context {St : Type}.
Variable ALL_TOOLS : list (McpTool St).

Lemma handleJsonRpc_tools_call req ctx env (st : St) :
  prop "method" req = VStr "tools/call" →
  handleJsonRpc ALL_TOOLS req ctx env st =
  (Normal (call_tool ALL_TOOLS (prop "id" req) (prop "params" req) ctx env st).1,
   (call_tool ALL_TOOLS (prop "id" req) (prop "params" req) ctx env st).2).
Proof.
  intros Hm. unfold handleJsonRpc.
  destruct req; try discriminate Hm; rewrite Hm; simpl;
    destruct (call_tool _ _ _ _ _ _); reflexivity.
Qed.



End DispatcherFacts.





(** ** Notifications *)

Section ServerFacts.
Import Js Auth Mcp Stdio.
Context {St : Type}.
Variable ALL_TOOLS : list (McpTool St).
Variable JSON_parse : string → option value.
Variable env : Env.
Variable ctx : option AuthContext.

(** C4: a message whose request has a null or absent id leaves standard
    output as it was, whatever the method and however it ends, and the
    state after the message is the state the dispatcher left: for a
    [tools/call] of a registered tool, the state its handler left. *)
Theorem notification_writes_nothing (body : string) (req : value) (s : Session) :
  JSON_parse body = Some req →
  prop "id" req = VNull ∨ prop "id" req = VUndefined →
  stdout (handleMessage ALL_TOOLS JSON_parse env ctx body s) = stdout s ∧
  state (handleMessage ALL_TOOLS JSON_parse env ctx body s)
    = (handleJsonRpc ALL_TOOLS req ctx env (state s)).2 ∧
  (∀ n tool,
     prop "method" req = VStr "tools/call" →
     prop "name" (prop "params" req) = VStr n → n ≠ EmptyString →
     TOOL_MAP ALL_TOOLS !! n = Some tool →
     state (handleMessage ALL_TOOLS JSON_parse env ctx body s)
       = (handler tool (match prop "arguments" (prop "params" req) with
                        | VUndefined | VNull => VObj []
                        | a => a
                        end) ctx env (state s)).2).
Proof.
  intros Hparse Hid.
  assert (Hout : stdout (handleMessage ALL_TOOLS JSON_parse env ctx body s) = stdout s ∧
                 state (handleMessage ALL_TOOLS JSON_parse env ctx body s)
                 = (handleJsonRpc ALL_TOOLS req ctx env (state s)).2).
  { unfold handleMessage. rewrite Hparse.
    destruct (handleJsonRpc ALL_TOOLS req ctx env (state s)) as [[response|e] st'];
      [| split; reflexivity].
    destruct Hid as [-> | ->]; split; reflexivity. }
  destruct Hout as [Hout Hstate]. split; [exact Hout|]. split; [exact Hstate|].
  intros n tool Hm Hname Hn Htool. rewrite Hstate.
  rewrite (handleJsonRpc_tools_call ALL_TOOLS _ _ _ _ Hm).
  unfold call_tool. rewrite Hname. simpl.
  apply String.eqb_neq in Hn. rewrite Hn. simpl. rewrite Htool.
  destruct (handler tool _ ctx env (state s)) as [[r|err] st']; simpl;
    [reflexivity|].
  destruct (code_and_message err) as [[code message]|]; reflexivity.
Qed.

(** A request with an id is answered with one frame. *)
Lemma request_writes_one_frame (body : string) (req : value) (s : Session)
    (response : JsonRpcResponse) (st' : St) :
  JSON_parse body = Some req →
  prop "id" req ≠ VNull → prop "id" req ≠ VUndefined →
  handleJsonRpc ALL_TOOLS req ctx env (state s) = (Normal response, st') →
  stdout (handleMessage ALL_TOOLS JSON_parse env ctx body s)
    = (stdout s ++ [frame response])%list.
Proof.
  intros Hparse Hnull Hundef Hdispatch. unfold handleMessage.
  rewrite Hparse, Hdispatch.
  destruct (prop "id" req); try reflexivity; congruence.
Qed.

End ServerFacts.

Lemma notification_writes_nothing_witness :
  let s := {| Stdio.stdout := []; Stdio.state := 0 |} in
  let after_ping :=
    Stdio.handleMessage [counting_tool] sample_parse sample_env None
      (json_text ping_notification) s in
  let after_touch :=
    Stdio.handleMessage [counting_tool] sample_parse sample_env None
      (json_text touch_notification) s in
  Stdio.stdout after_ping = [] ∧ Stdio.stdout after_touch = [] ∧
  Stdio.state after_touch = 1.
Proof.
  cbv zeta. split; [| split].
  - refine (proj1 (notification_writes_nothing [counting_tool] sample_parse sample_env
                     None (json_text ping_notification) ping_notification
                     {| Stdio.stdout := []; Stdio.state := 0 |} eq_refl _)).
    right. reflexivity.
  - refine (proj1 (notification_writes_nothing [counting_tool] sample_parse sample_env
                     None (json_text touch_notification) touch_notification
                     {| Stdio.stdout := []; Stdio.state := 0 |} eq_refl _)).
    left. reflexivity.
  - refine (proj2 (proj2 (notification_writes_nothing [counting_tool] sample_parse
                     sample_env None (json_text touch_notification) touch_notification
                     {| Stdio.stdout := []; Stdio.state := 0 |} eq_refl _))
              "touch" counting_tool eq_refl eq_refl _ _).
    + left. reflexivity.
    + discriminate.
    + vm_compute. reflexivity.
Defined.

Example request_with_id_is_answered :
  Stdio.stdout
    (Stdio.handleMessage [counting_tool] sample_parse sample_env None
       (json_text (tools_call (Js.VNum 1) (Js.VStr "touch")))
       {| Stdio.stdout := []; Stdio.state := 0 |})
  ≠ [].
Proof. vm_compute. discriminate. Qed.

(** ** Rounding of rates *)

Section StatsFacts.
Import Stats.
Local Open Scope Q_scope.








End StatsFacts.


(** ** More on the storage engine *)

Section StorageFacts.
Import Js Sqlite.

Lemma filter_clauses_binds (f : Filter) :
  list_sum (List.map clause_arity (filter_clauses f).1) = length (filter_clauses f).2.
Proof.
  unfold filter_clauses. destruct (op f); try reflexivity.
  - destruct (value f); reflexivity.
  - destruct (value f) as [| | | | |[|x xs]|]; simpl; try reflexivity.
    f_equal. apply Nat.add_0_r.
Qed.

Lemma flat_map_binds (fs : list Filter) :
  list_sum (List.map clause_arity (flat_map (fun f => (filter_clauses f).1) fs))
  = length (flat_map (fun f => (filter_clauses f).2) fs).
Proof.
  induction fs as [|f rest IH]; [reflexivity|].
  cbn [flat_map]. rewrite List.map_app, list_sum_app, List.length_app, IH.
  rewrite filter_clauses_binds. reflexivity.
Qed.


Lemma filter_clauses_none (f : Filter) :
  (filter_clauses f).1 = [] ↔ no_clause f = true.
Proof.
  unfold filter_clauses, no_clause. destruct (op f); simpl;
    try (split; discriminate).
  - destruct (value f); simpl; split; discriminate.
  - destruct (value f) as [| | | | |[|x xs]|]; simpl; split;
      try reflexivity; discriminate.
Qed.

Lemma flat_map_clauses_none (fs : list Filter) :
  flat_map (fun f => (filter_clauses f).1) fs = [] ↔ forallb no_clause fs = true.
Proof.
  induction fs as [|f rest IH]; simpl; [split; reflexivity|].
  rewrite andb_true_iff, <- IH, <- filter_clauses_none.
  split.
  - intros H. apply app_eq_nil in H. exact H.
  - intros [-> ->]. reflexivity.
Qed.

Lemma binds_buildWhere (fs : list Filter) :
  binds (list_sum (List.map clause_arity (where_clauses (where_ (buildWhere fs)))))
    (params (buildWhere fs)) = true.
Proof.
  unfold binds. destruct fs as [|f rest]; [reflexivity|].
  unfold buildWhere. cbn [where_ params where_clauses].
  rewrite flat_map_binds. apply Nat.eqb_refl.
Qed.

Lemma where_parses_buildWhere (fs : list Filter) :
  where_parses (where_ (buildWhere fs)) = false ↔
  fs ≠ [] ∧ forallb no_clause fs = true.
Proof.
  destruct fs as [|f rest]; [simpl; split; [discriminate | intros [H _]; congruence]|].
  unfold buildWhere. cbn [where_ where_parses].
  rewrite <- flat_map_clauses_none.
  destruct (flat_map (fun f0 => (filter_clauses f0).1) (f :: rest)) as [|c cs].
  - split; [intros _; split; [discriminate | reflexivity] | reflexivity].
  - split; [discriminate | intros [_ H]; discriminate].
Qed.

(** The statement that [query] runs, by cases on how it can fail. *)
Lemma sqlite_all_cases (db : Database) (q : Select) (bound : list Js.value) :
  sqlite_all db q bound =
  match db !! s_table q with
  | None => Throw (SqliteError "SQLITE_ERROR" "no such table")
  | Some rows =>
      if negb (where_parses (s_where q))
      then Throw (SqliteError "SQLITE_ERROR" "incomplete input")
      else if binds (list_sum (List.map clause_arity (where_clauses (s_where q)))) bound
      then Normal (List.map (project (s_select q))
                     (limit_rows (s_limit q) (s_offset q)
                        (order_rows (s_order q)
                           (List.filter (eval_where (where_clauses (s_where q)) bound)
                              rows))))
      else Throw (ThrownError "Too few parameter values were provided" [])
  end.
Proof.
  unfold sqlite_all. destruct (db !! s_table q) as [rows|]; [| reflexivity].
  destruct (s_where q) as [[|c cs]|]; reflexivity.
Qed.





Lemma order_rows_none rows : order_rows [] rows = rows.
Proof.
  unfold order_rows. induction rows as [|r rest IH]; simpl; [reflexivity|].
  rewrite IH. destruct rest; reflexivity.
Qed.

(** What [count], [delete] and [query] without options do, in terms of
    the rows that match. *)
Lemma count_cases (tbl : string) (fs : list Filter) (db : Database) :
  count tbl (Some fs) db =
  match db !! tbl with
  | None => Throw (SqliteError "SQLITE_ERROR" "no such table")
  | Some _ =>
      if where_parses (where_ (buildWhere fs))
      then Normal (length (matching fs db tbl))
      else Throw (SqliteError "SQLITE_ERROR" "incomplete input")
  end.
Proof.
  unfold count, sqlite_count, matching, rows_of.
  destruct (db !! tbl) as [rows|]; [| reflexivity].
  destruct (where_parses (where_ (buildWhere fs))); [| reflexivity].
  cbn [negb]. rewrite binds_buildWhere. reflexivity.
Qed.

Lemma delete_cases (tbl : string) (fs : list Filter) (db : Database) :
  delete tbl fs db =
  match db !! tbl with
  | None => (Throw (SqliteError "SQLITE_ERROR" "no such table"), db)
  | Some rows =>
      if where_parses (where_ (buildWhere fs))
      then (Normal (matching fs db tbl),
            <[tbl := List.filter
                       (fun r => negb (eval_where (where_clauses (where_ (buildWhere fs)))
                                         (params (buildWhere fs)) r)) rows]> db)
      else (Throw (SqliteError "SQLITE_ERROR" "incomplete input"), db)
  end.
Proof.
  unfold delete, sqlite_delete, matching, rows_of. cbn [d_table d_where].
  destruct (db !! tbl) as [rows|]; [| reflexivity].
  destruct (where_parses (where_ (buildWhere fs))); [| reflexivity].
  cbn [negb]. rewrite binds_buildWhere. reflexivity.
Qed.



Lemma filter_partition_length {A} (p : A → bool) (l : list A) :
  length (List.filter p l) + length (List.filter (fun x => negb (p x)) l) = length l.
Proof.
  induction l as [|x l IH]; simpl; [reflexivity|].
  destruct (p x); simpl; lia.
Qed.

Lemma filter_after_remove {A} (p : A → bool) (l : list A) :
  List.filter p (List.filter (fun x => negb (p x)) l) = [].
Proof.
  induction l as [|x l IH]; simpl; [reflexivity|].
  destruct (p x) eqn:E; simpl; [exact IH|]. rewrite E. exact IH.
Qed.


Lemma delete_effect (tbl : string) (fs : list Filter) (db db' : Database)
    (deleted : list Row) :
  delete tbl fs db = (Normal deleted, db') →
  deleted = matching fs db tbl ∧
  count tbl (Some fs) db = Normal (length deleted) ∧
  count tbl (Some fs) db' = Normal 0 ∧
  query (select_all tbl fs) db' = Normal [] ∧
  length (rows_of db' tbl) + length deleted = length (rows_of db tbl) ∧
  (∀ t, t ≠ tbl → db' !! t = db !! t).
Proof.
  rewrite delete_cases. intros H.
  destruct (db !! tbl) as [rows|] eqn:Etbl; [| discriminate].
  destruct (where_parses (where_ (buildWhere fs))) eqn:Ep; [| discriminate].
  injection H as <- <-.
  assert (Hafter : matching fs (<[tbl := List.filter
             (fun r => negb (eval_where (where_clauses (where_ (buildWhere fs)))
                               (params (buildWhere fs)) r)) rows]> db) tbl = []).
  { unfold matching, rows_of. rewrite lookup_insert_eq. apply filter_after_remove. }
  split; [reflexivity|].
  split; [rewrite count_cases, Etbl, Ep; reflexivity|].
  split; [rewrite count_cases, lookup_insert_eq, Ep, Hafter; reflexivity|].
  split.
  - unfold query, buildSelect, select_all. rewrite sqlite_all_cases.
    cbn [s_table s_where s_select s_limit s_offset s_order table filters select order
         limit offset].
    rewrite lookup_insert_eq, Ep, binds_buildWhere. cbn [negb].
    unfold matching, rows_of in Hafter. rewrite lookup_insert_eq in Hafter.
    rewrite Hafter. reflexivity.
  - split.
    + unfold matching, rows_of. rewrite lookup_insert_eq, Etbl.
      rewrite Nat.add_comm. apply filter_partition_length.
    + intros t Ht. apply lookup_insert_ne. congruence.
Qed.























Lemma hex_digit_inj (n m : nat) :
  n < 16 → m < 16 → hex_digit n = hex_digit m → n = m.
Proof.
  intros Hn Hm.
  do 16 (destruct n as [|n]; [do 16 (destruct m as [|m]; [first [reflexivity | discriminate]|]); lia|]).
  lia.
Qed.

Lemma hex2_inj (n m : nat) : n < 256 → m < 256 → hex2 n = hex2 m → n = m.
Proof.
  intros Hn Hm H.
  assert (Hhi : hex_digit (n / 16) = hex_digit (m / 16)) by (unfold hex2 in H; congruence).
  assert (Hlo : hex_digit (n mod 16) = hex_digit (m mod 16))
    by (unfold hex2 in H; congruence).
  apply hex_digit_inj in Hhi;
    [| apply Nat.Div0.div_lt_upper_bound; lia | apply Nat.Div0.div_lt_upper_bound; lia].
  apply hex_digit_inj in Hlo; [| apply Nat.mod_upper_bound; lia ..].
  rewrite (Nat.div_mod_eq n 16), (Nat.div_mod_eq m 16). congruence.
Qed.

Lemma byte_to_nat_inj (b1 b2 : Byte.byte) :
  N.to_nat (Byte.to_N b1) = N.to_nat (Byte.to_N b2) → b1 = b2.
Proof.
  intros H. apply N2Nat.inj in H.
  pose proof (Strings.Byte.of_to_N b1) as H1. pose proof (Strings.Byte.of_to_N b2) as H2.
  congruence.
Qed.

Lemma hex2_app_inj (n m : nat) (s t : string) :
  hex2 n ++ s = hex2 m ++ t → hex2 n = hex2 m ∧ s = t.
Proof.
  unfold hex2. cbn [String.append]. intros H. split; congruence.
Qed.

(** X11: [generateId] loses nothing of the random bytes: two arrays that
    give the same id are the same array, so ids collide only when the
    random bytes do. *)
Theorem generateId_injective (bytes1 bytes2 : list Byte.byte) :
  generateId bytes1 = generateId bytes2 → bytes1 = bytes2.
Proof.
  unfold generateId. revert bytes2.
  induction bytes1 as [|b1 rest1 IH]; intros [|b2 rest2] H.
  - reflexivity.
  - cbn [List.map] in H. rewrite join_empty_cons in H. discriminate.
  - cbn [List.map] in H. rewrite join_empty_cons in H. discriminate.
  - cbn [List.map] in H. rewrite !join_empty_cons in H.
    apply hex2_app_inj in H as [Hhex Hrest].
    f_equal; [| apply IH, Hrest].
    apply byte_to_nat_inj, hex2_inj; [| | exact Hhex];
      pose proof (Strings.Byte.to_N_bounded b1); pose proof (Strings.Byte.to_N_bounded b2); lia.
Qed.

Lemma generateId_injective_witness :
  generateId sample_random = "000102030a0b0c0d10207f80a5c3feff" ∧
  sample_random = sample_random.
Proof.
  split; [vm_compute; reflexivity|].
  exact (generateId_injective sample_random sample_random eq_refl).
Defined.

End StorageFacts.

(** ** More on the migration runner *)

Section MigrateMoreFacts.
Import Js Sqlite.

Lemma insert_ledger_grows n f db :
  objects db ⊆ objects (insert_ledger n f db).2 ∧
  ledger db `prefix_of` ledger (insert_ledger n f db).2.
Proof.
  unfold insert_ledger. destruct (tick f); [| split; reflexivity].
  destruct (decide (n ∈ ledger db)); simpl; split; try reflexivity.
  apply prefix_app_r. reflexivity.
Qed.

Lemma apply_pending_grows applied ms f db :
  objects db ⊆ objects (store (apply_pending applied ms f db)) ∧
  ledger db `prefix_of` ledger (store (apply_pending applied ms f db)).
Proof.
  revert f db. induction ms as [|m rest IH]; intros f db; simpl; [split; reflexivity|].
  destruct (decide (name m ∈ applied)); [apply IH|].
  pose proof (exec_objects_mono (sql m) f db) as Ho1.
  pose proof (exec_ledger (sql m) f db) as Hl1.
  destruct (exec (sql m) f db) as [[o1 f1] db1]. simpl in Ho1, Hl1.
  destruct o1 as [u|e]; simpl; [| split; [exact Ho1 | rewrite Hl1; reflexivity]].
  pose proof (insert_ledger_grows (name m) f1 db1) as [Ho2 Hl2].
  destruct (insert_ledger (name m) f1 db1) as [[o2 f2] db2]. simpl in Ho2, Hl2.
  rewrite Hl1 in Hl2.
  destruct o2 as [u2|e2]; simpl.
  - destruct (IH f2 db2) as [Ho3 Hl3]. split; etrans; eauto. etrans; eauto.
  - split; [etrans; eauto | exact Hl2].
Qed.

(** X12: [migrate] only adds. However a run ends, every schema object of
    the store it started from is still there and the ledger it started
    from is the beginning of the ledger it leaves. *)
Theorem migrate_only_adds (f : Fault) (db : Store) :
  objects db ⊆ objects (store (migrate f db)) ∧
  ledger db `prefix_of` ledger (store (migrate f db)).
Proof.
  unfold migrate, migrate_over.
  pose proof (exec_objects_mono [CreateTable "_migrations"] f db) as Ho0.
  pose proof (exec_ledger [CreateTable "_migrations"] f db) as Hl0.
  destruct (exec [CreateTable "_migrations"] f db) as [[o0 f0] db0]. simpl in Ho0, Hl0.
  destruct o0 as [u|e]; [| cbn [store]; split; [exact Ho0 | rewrite Hl0; reflexivity]].
  destruct (apply_pending_grows (list_to_set (ledger db0)) MIGRATIONS f0 db0) as [Ho Hl].
  split; [etrans; eauto | rewrite <- Hl0; exact Hl].
Qed.

Lemma apply_pending_executed applied ms f db :
  ∀ n, n ∈ executed (apply_pending applied ms f db) →
       (n ∉ applied) ∧ n ∈ (name <$> ms).
Proof.
  revert f db. induction ms as [|m rest IH]; intros f db n; simpl; [intros H; inversion H|].
  destruct (decide (name m ∈ applied)) as [Hin|Hout].
  - intros H. destruct (IH f db n H) as [H1 H2]. split; [exact H1 | set_solver].
  - destruct (exec (sql m) f db) as [[o1 f1] db1].
    destruct o1 as [u|e]; simpl; [| intros H; apply list_elem_of_singleton in H as ->;
                                     split; [exact Hout | set_solver]].
    destruct (insert_ledger (name m) f1 db1) as [[o2 f2] db2].
    destruct o2 as [u2|e2]; simpl.
    + intros H. apply elem_of_cons in H as [-> | H]; [split; [exact Hout | set_solver]|].
      destruct (IH f2 db2 n H) as [H1 H2]. split; [exact H1 | set_solver].
    + intros H. apply list_elem_of_singleton in H as ->. split; [exact Hout | set_solver].
Qed.

(** X13: a migration that the ledger records is never run again: however
    a run goes, every script it hands to the database belongs to a
    migration of [MIGRATIONS] whose name was not in the ledger when the
    run started. *)
Theorem migrate_skips_recorded (f : Fault) (db : Store) (n : string) :
  n ∈ executed (migrate f db) →
  (n ∉ ledger db) ∧ n ∈ (name <$> MIGRATIONS).
Proof.
  unfold migrate, migrate_over.
  pose proof (exec_ledger [CreateTable "_migrations"] f db) as Hl0.
  destruct (exec [CreateTable "_migrations"] f db) as [[o0 f0] db0]. simpl in Hl0.
  destruct o0 as [u|e]; [| cbn [executed]; intros H; inversion H].
  intros H. apply apply_pending_executed in H as [H1 H2].
  split; [| exact H2]. rewrite <- Hl0. intros Hin. apply H1.
  apply elem_of_list_to_set. exact Hin.
Qed.

Lemma migrate_keeps_ledger_sound (f : Fault) (db : Store) :
  ledger_sound MIGRATIONS db → ledger_sound MIGRATIONS (store (migrate f db)).
Proof.
  intros Hinv. unfold migrate, migrate_over.
  pose proof (exec_ledger [CreateTable "_migrations"] f db) as Hl.
  pose proof (exec_objects_mono [CreateTable "_migrations"] f db) as Ho.
  destruct (exec [CreateTable "_migrations"] f db) as [[o0 f0] db0]. simpl in Hl, Ho.
  assert (Hsound0 : ledger_sound MIGRATIONS db0).
  { intros m' Hm' Hrec. apply (applied_in_mono db); [exact Ho|].
    apply Hinv; [exact Hm'|]. unfold recorded_in in *. rewrite <- Hl. exact Hrec. }
  destruct o0 as [u|e]; [| exact Hsound0].
  apply apply_pending_sound;
    [apply MIGRATIONS_names_distinct | reflexivity | exact Hsound0].
Qed.

Lemma migrate_no_fault_records_all (db : Store) :
  outcome (migrate None db) = Normal tt ∧
  ∀ m, m ∈ MIGRATIONS → name m ∈ ledger (store (migrate None db)).
Proof.
  unfold migrate, migrate_over.
  cbn [exec tick run_stmt stmt_object objects ledger].
  set (db0 := {| objects := {["_migrations"]} ∪ objects db; ledger := ledger db |}).
  destruct (apply_pending_no_fault (list_to_set (ledger db0)) MIGRATIONS db0)
    as (Ho & Hobj & Hled & Hall).
  - apply MIGRATIONS_names_distinct.
  - intros m _ Hout Hin. apply Hout. apply elem_of_list_to_set. exact Hin.
  - split; [exact Ho|].
    intros m Hm. destruct (Hall m Hm) as [Hin | Hin]; [| exact Hin].
    apply Hled. apply elem_of_list_to_set in Hin. exact Hin.
Qed.

(** X14: a run that failed can be repeated. From a store in which every
    recorded migration is applied, after a run that ended in any way, a
    run that meets no failure completes and leaves every migration of
    [MIGRATIONS] recorded and applied. *)
Theorem migrate_resumes_after_failure (f : Fault) (db : Store) :
  (∀ m, m ∈ MIGRATIONS → recorded_in db m → applied_in db m) →
  let again := migrate None (store (migrate f db)) in
  outcome again = Normal tt ∧
  ∀ m, m ∈ MIGRATIONS → recorded_in (store again) m ∧ applied_in (store again) m.
Proof.
  intros Hinv. cbv zeta.
  destruct (migrate_no_fault_records_all (store (migrate f db))) as [Ho Hall].
  split; [exact Ho|]. intros m Hm.
  assert (Hrec : recorded_in (store (migrate None (store (migrate f db)))) m)
    by (apply Hall, Hm).
  split; [exact Hrec|].
  apply (migrate_keeps_ledger_sound None (store (migrate f db))); [| exact Hm | exact Hrec].
  apply migrate_keeps_ledger_sound. exact Hinv.
Qed.

Lemma migrate_resumes_after_failure_witness :
  let again := migrate None (store (migrate (Some 2) empty_store)) in
  outcome again = Normal tt ∧
  ∀ m, m ∈ MIGRATIONS → recorded_in (store again) m ∧ applied_in (store again) m.
Proof.
  apply (migrate_resumes_after_failure (Some 2) empty_store).
  intros m _ Hrec. inversion Hrec.
Defined.

Lemma migrate_skips_recorded_witness :
  ("001_core.sql" ∉ ledger empty_store) ∧ "001_core.sql" ∈ (name <$> MIGRATIONS).
Proof.
  apply (migrate_skips_recorded (Some 2) empty_store "001_core.sql").
  vm_compute. apply list_elem_of_here.
Defined.

End MigrateMoreFacts.

(** ** More on the transport framer *)

Section FramerMoreFacts.
Import Js Stdio.

Lemma string_app_assoc (a b c : string) : (a ++ b) ++ c = a ++ (b ++ c).
Proof. induction a as [|x a IH]; simpl; [reflexivity | rewrite IH; reflexivity]. Qed.

Lemma str_take_app (a b : string) : str_take (String.length a) (a ++ b) = a.
Proof.
  induction a as [|x a IH]; simpl; [destruct b; reflexivity | rewrite IH; reflexivity].
Qed.

Lemma str_drop_app (a b : string) : str_drop (String.length a) (a ++ b) = b.
Proof. induction a as [|x a IH]; simpl; [reflexivity | exact IH]. Qed.

Lemma str_drop_add (n m : nat) (s : string) :
  str_drop (n + m) s = str_drop m (str_drop n s).
Proof.
  revert s. induction n as [|n IH]; intros s; simpl; [reflexivity|].
  destruct s as [|c s]; [destruct m; reflexivity | apply IH].
Qed.

Lemma str_drop_drop_suffix (n : nat) (t s : string) :
  suffix_of t s → suffix_of (str_drop n t) s.
Proof.
  intros [k ->]. exists (k + n). rewrite str_drop_add. reflexivity.
Qed.

Lemma line_turn_suffix buffer :
  match line_turn buffer with
  | Wait => True
  | Message _ rest | Skip rest => suffix_of rest buffer
  end.
Proof.
  unfold line_turn. destruct (String.index 0 LF buffer) as [lineEnd|]; [| exact I].
  destruct (trim (str_take lineEnd buffer)); exists (lineEnd + 1); reflexivity.
Qed.

Lemma turn_suffix buffer :
  match turn buffer with
  | Wait => True
  | Message _ rest | Skip rest => suffix_of rest buffer
  end.
Proof.
  unfold turn.
  destruct (String.index 0 (CRLF ++ CRLF) buffer) as [headerEnd|];
    [| apply line_turn_suffix].
  destruct (header_match (str_take headerEnd buffer)) as [digits|];
    [| apply line_turn_suffix].
  destruct (Nat.ltb _ _); [exact I|].
  exists (headerEnd + 4 + parseInt digits). reflexivity.
Qed.

Lemma drain_suffix (fuel : nat) (buffer : string) :
  suffix_of (drain fuel buffer).2 buffer.
Proof.
  revert buffer. induction fuel as [|fuel IH]; intros buffer;
    [exists 0; reflexivity|].
  simpl. destruct buffer as [|c b]; [exists 0; reflexivity|].
  pose proof (turn_suffix (String c b)) as Hs.
  destruct (turn (String c b)) as [|body rest|rest]; [exists 0; reflexivity | |].
  - specialize (IH rest). destruct (drain fuel rest) as [bodies remaining].
    simpl in *. destruct IH as [k ->]. apply str_drop_drop_suffix, Hs.
  - specialize (IH rest). destruct IH as [k ->]. apply str_drop_drop_suffix, Hs.
Qed.

Lemma drain_waiting (fuel : nat) (buffer : string) :
  buffer = EmptyString ∨ turn buffer = Wait → drain fuel buffer = ([], buffer).
Proof.
  intros H. destruct fuel as [|fuel]; [reflexivity|]. simpl.
  destruct buffer as [|c b]; [reflexivity|].
  destruct H as [H | H]; [discriminate | rewrite H; reflexivity].
Qed.

(** X15: [processBuffer] drains the buffer for good. What it leaves is a
    tail of the buffer it was given; that tail is empty or makes the next
    turn wait for input; and draining it again extracts nothing and
    leaves it as it is. *)
Theorem processBuffer_drains_for_good (buffer : string) :
  let remaining := (processBuffer buffer).2 in
  suffix_of remaining buffer ∧
  (remaining = EmptyString ∨ turn remaining = Wait) ∧
  processBuffer remaining = ([], remaining).
Proof.
  cbv zeta. split; [apply drain_suffix|].
  pose proof (drain_settles (String.length buffer) buffer (Nat.le_refl _)) as H.
  split; [exact H|]. apply drain_waiting, H.
Qed.

Lemma is_digit_not_space (c : ascii) : is_digit c = true → is_space c = false.
Proof.
  unfold is_digit, is_space. intros H. apply andb_true_iff in H as [H1 H2].
  apply Nat.leb_le in H1, H2.
  destruct (Nat.leb_spec (nat_of_ascii c) 13); [lia|].
  rewrite andb_false_r. simpl.
  destruct (Nat.eqb_spec (nat_of_ascii c) 32); [lia|].
  destruct (Nat.eqb_spec (nat_of_ascii c) 160); [lia | reflexivity].
Qed.

Lemma uint_all_digits (d : Decimal.uint) :
  Forall (fun c => is_digit c = true)
    (list_ascii_of_string (NilEmpty.string_of_uint d)).
Proof. induction d; simpl; constructor; try reflexivity; assumption. Qed.

Lemma nat_to_string_digits (n : nat) :
  Forall (fun c => is_digit c = true) (list_ascii_of_string (nat_to_string n)) ∧
  nat_to_string n ≠ EmptyString.
Proof.
  unfold nat_to_string, NilZero.string_of_uint.
  destruct (Nat.to_uint n) eqn:E; cbv iota;
    (split; [| discriminate]);
    first [ apply uint_all_digits | repeat constructor ].
Qed.

Lemma parse_uint (d : Decimal.uint) (acc : nat) :
  fold_left (fun a c => 10 * a + (nat_of_ascii c - 48))
    (list_ascii_of_string (NilEmpty.string_of_uint d)) acc
  = Nat.of_uint_acc d acc.
Proof.
  revert acc. induction d; intros acc; cbn [NilEmpty.string_of_uint list_ascii_of_string
    fold_left Nat.of_uint_acc]; [reflexivity | ..];
    rewrite IHd, Nat.tail_mul_spec; f_equal;
    match goal with |- context [nat_of_ascii ?c - 48] =>
      let k := eval vm_compute in (nat_of_ascii c - 48) in
      change (nat_of_ascii c - 48) with k end; lia.
Qed.

Lemma parseInt_nat_to_string (n : nat) : parseInt (nat_to_string n) = n.
Proof.
  unfold parseInt, nat_to_string, NilZero.string_of_uint.
  rewrite <- (DecimalNat.Unsigned.of_to n) at 2. unfold Nat.of_uint.
  destruct (Nat.to_uint n) eqn:E;
    first [rewrite <- parse_uint; reflexivity | reflexivity].
Qed.

Lemma take_digits_all (s : string) :
  Forall (fun c => is_digit c = true) (list_ascii_of_string s) → take_digits s = s.
Proof.
  induction s as [|c s IH]; intros H; [reflexivity|].
  simpl in H. inversion H as [|? ? Hc Hs]; subst. simpl. rewrite Hc, IH; auto.
Qed.

(** The header [Content-Length: ] followed by a number. *)
Lemma header_match_own (digits : string) :
  Forall (fun c => is_digit c = true) (list_ascii_of_string digits) →
  digits ≠ EmptyString →
  header_match ("Content-Length: " ++ digits) = Some digits.
Proof.
  intros Hd Hne. destruct digits as [|c ds]; [congruence|].
  assert (Hc : is_digit c = true) by (simpl in Hd; inversion Hd; assumption).
  change ("Content-Length: " ++ String c ds)
    with (String "C" ("ontent-Length: " ++ String c ds)).
  cbn [header_match]. unfold match_here.
  change (prefix_ci "Content-Length:" (String "C" ("ontent-Length: " ++ String c ds)))
    with true. cbv iota.
  change (str_drop 15 (String "C" ("ontent-Length: " ++ String c ds)))
    with (String " " (String c ds)).
  change (trim_start (String " " (String c ds))) with (trim_start (String c ds)).
  cbn [trim_start]. rewrite (is_digit_not_space c Hc).
  rewrite (take_digits_all (String c ds) Hd). reflexivity.
Qed.

Lemma prefix_app (a b : string) : String.prefix a (a ++ b) = true.
Proof.
  induction a as [|x a IH]; [destruct b; reflexivity|].
  change (String x a ++ b) with (String x (a ++ b)). cbn [String.prefix].
  destruct (Ascii.ascii_dec x x); [exact IH | congruence].
Qed.

Lemma index_blank_line (s tail : string) :
  no_CR s →
  String.index 0 (CRLF ++ CRLF) (s ++ (CRLF ++ CRLF) ++ tail) = Some (String.length s).
Proof.
  induction s as [|c s IH]; intros H.
  - change (EmptyString ++ (CRLF ++ CRLF) ++ tail)
      with (String "013" (String "010" (CRLF ++ tail))).
    cbn [String.index].
    change (String "013" (String "010" (CRLF ++ tail))) with ((CRLF ++ CRLF) ++ tail).
    rewrite prefix_app. reflexivity.
  - unfold no_CR in H. simpl in H. inversion H as [|? ? Hc Hs]; subst.
    change (String c s ++ (CRLF ++ CRLF) ++ tail)
      with (String c (s ++ (CRLF ++ CRLF) ++ tail)).
    cbn [String.index].
    assert (Hp : String.prefix (CRLF ++ CRLF) (String c (s ++ (CRLF ++ CRLF) ++ tail))
                 = false).
    { change (CRLF ++ CRLF)
        with (String "013" (String "010" (String "013" (String "010" EmptyString)))).
      cbn [String.prefix]. destruct (Ascii.ascii_dec "013" c); [congruence | reflexivity]. }
    rewrite Hp, (IH Hs). reflexivity.
Qed.

Lemma digits_no_CR (s : string) :
  Forall (fun c => is_digit c = true) (list_ascii_of_string s) → no_CR s.
Proof.
  unfold no_CR. intros H. eapply Forall_impl; [exact H|].
  intros c Hc ->. discriminate Hc.
Qed.

Lemma no_CR_app (a b : string) : no_CR a → no_CR b → no_CR (a ++ b).
Proof.
  unfold no_CR. induction a as [|c a IH]; intros Ha Hb; [exact Hb|].
  simpl in *. inversion Ha; subst. constructor; auto.
Qed.

(** One turn on a buffer that starts with a message in wire form. *)
Lemma turn_wire (body rest : string) :
  turn (wire body ++ rest) = Message body rest.
Proof.
  destruct (nat_to_string_digits (String.length body)) as [Hd Hne].
  set (digits := nat_to_string (String.length body)) in *.
  set (head := "Content-Length: " ++ digits).
  assert (Hbuf : wire body ++ rest = head ++ (CRLF ++ CRLF) ++ (body ++ rest)).
  { unfold wire, head. fold digits. rewrite !string_app_assoc. reflexivity. }
  assert (Hclean : no_CR head).
  { apply no_CR_app; [| apply digits_no_CR, Hd].
    unfold no_CR. simpl. repeat (constructor; [discriminate|]). constructor. }
  unfold turn. rewrite Hbuf, (index_blank_line head (body ++ rest) Hclean).
  assert (Hhm : header_match head = Some digits) by (apply header_match_own; assumption).
  assert (Hn : parseInt digits = String.length body) by apply parseInt_nat_to_string.
  rewrite str_take_app, Hhm, Hn.
  assert (Hlen : String.length (head ++ (CRLF ++ CRLF) ++ body ++ rest)
                 - (String.length head + 4)
                 = String.length body + String.length rest).
  { rewrite !string_length_app. simpl. lia. }
  rewrite Hlen.
  assert (Hlt : Nat.ltb (String.length body + String.length rest) (String.length body)
                = false) by (apply Nat.ltb_ge; lia).
  rewrite Hlt.
  assert (Hdrop : str_drop (String.length head + 4)
                    (head ++ (CRLF ++ CRLF) ++ body ++ rest) = body ++ rest).
  { rewrite str_drop_add, str_drop_app. reflexivity. }
  rewrite Hdrop, str_take_app.
  rewrite str_drop_add, Hdrop, str_drop_app. reflexivity.
Qed.

Lemma drain_wire (body rest : string) :
  processBuffer (wire body ++ rest)
  = (body :: (processBuffer rest).1, (processBuffer rest).2).
Proof.
  unfold processBuffer.
  assert (Hlen : String.length (wire body ++ rest)
                 = S (15 + String.length (nat_to_string (String.length body)) + 4
                      + String.length body + String.length rest)).
  { unfold wire. rewrite !string_length_app. simpl. lia. }
  rewrite Hlen. cbn [drain].
  destruct (wire body ++ rest) as [|c b] eqn:Ebuf; [simpl in Hlen; lia|].
  rewrite <- Ebuf, turn_wire.
  rewrite (drain_fuel_irrelevant _ (String.length rest) rest); [| lia | lia].
  destruct (drain (String.length rest) rest) as [bodies remaining]. reflexivity.
Qed.


Lemma prefix_blank_line_one_line (s : string) :
  one_line s → String.prefix (CRLF ++ CRLF) (s ++ LF) = false.
Proof.
  unfold one_line.
  change (CRLF ++ CRLF)
    with (String "013" (String "010" (String "013" (String "010" EmptyString)))).
  destruct s as [|c s]; intros H; [reflexivity|].
  change (String c s ++ LF) with (String c (s ++ LF)). cbn [String.prefix].
  destruct (Ascii.ascii_dec "013" c); [| reflexivity].
  destruct s as [|d s]; [reflexivity|].
  change (String d s ++ LF) with (String d (s ++ LF)). cbn [String.prefix].
  destruct (Ascii.ascii_dec "010" d) as [<-|]; [| reflexivity].
  simpl in H. inversion H as [|? ? _ H2]; subst. inversion H2; subst. congruence.
Qed.

Lemma one_line_tail (c : ascii) (s : string) : one_line (String c s) → one_line s.
Proof. unfold one_line. simpl. intros H. inversion H; assumption. Qed.

Lemma index_blank_line_one_line (s : string) :
  one_line s → String.index 0 (CRLF ++ CRLF) (s ++ LF) = None.
Proof.
  induction s as [|c s IH]; intros H; [reflexivity|].
  pose proof (prefix_blank_line_one_line (String c s) H) as Hp.
  change (String c s ++ LF) with (String c (s ++ LF)) in *. cbn [String.index].
  rewrite Hp, (IH (one_line_tail c s H)). reflexivity.
Qed.

Lemma index_LF_one_line (s : string) :
  one_line s → String.index 0 LF (s ++ LF) = Some (String.length s).
Proof.
  induction s as [|c s IH]; intros H; [reflexivity|].
  change (String c s ++ LF) with (String c (s ++ LF)). cbn [String.index].
  assert (Hp : String.prefix LF (String c (s ++ LF)) = false).
  { unfold LF. cbn [String.prefix]. destruct (Ascii.ascii_dec "010" c) as [<-|];
      [| reflexivity].
    unfold one_line in H. simpl in H. inversion H; subst. congruence. }
  rewrite Hp, (IH (one_line_tail c s H)). reflexivity.
Qed.

(** X17: a buffer that holds one line and its line feed, with no line
    feed inside the line, is consumed whole: the trimmed line is the one
    message, and a line that is blank after trimming gives no message. *)
Theorem processBuffer_one_line (line : string) :
  one_line line →
  processBuffer (line ++ LF)
  = (match trim line with
     | EmptyString => []
     | t => [t]
     end, EmptyString).
Proof.
  intros H. unfold processBuffer.
  assert (Hlen : String.length (line ++ LF) = S (String.length line))
    by (rewrite string_length_app; simpl; lia).
  rewrite Hlen. cbn [drain].
  destruct (line ++ LF) as [|c b] eqn:Ebuf; [simpl in Hlen; lia|]. rewrite <- Ebuf.
  unfold turn. rewrite (index_blank_line_one_line line H).
  unfold line_turn. rewrite (index_LF_one_line line H).
  rewrite str_take_app, str_drop_add, str_drop_app.
  change (str_drop 1 LF) with EmptyString.
  destruct (trim line) as [|t ts].
  - destruct (String.length line); reflexivity.
  - destruct (String.length line); reflexivity.
Qed.

(** X18: a chunk boundary inside the body is harmless. When the buffer
    holds a complete header and fewer body characters than it announces,
    nothing is extracted and nothing is consumed, and the message comes
    out when the rest arrives exactly as if it had arrived in one
    chunk. *)
Theorem body_split_is_harmless (first second digits : string) (headerEnd : nat) :
  String.index 0 (CRLF ++ CRLF) first = Some headerEnd →
  header_match (str_take headerEnd first) = Some digits →
  String.length first - (headerEnd + 4) < parseInt digits →
  processBuffer first = ([], first) ∧
  feed EmptyString [first; second] = feed EmptyString [first ++ second].
Proof.
  intros Hidx Hmatch Hshort. split.
  - apply (processBuffer_waits_for_body first digits headerEnd); assumption.
  - apply (split_inside_body_is_invisible first second digits headerEnd); assumption.
Qed.

Lemma body_split_is_harmless_witness :
  processBuffer ("Content-Length: 5" ++ CRLF ++ CRLF ++ "he")
  = ([], "Content-Length: 5" ++ CRLF ++ CRLF ++ "he") ∧
  feed EmptyString ["Content-Length: 5" ++ CRLF ++ CRLF ++ "he"; "llo"]
  = feed EmptyString [("Content-Length: 5" ++ CRLF ++ CRLF ++ "he") ++ "llo"].
Proof.
  apply (body_split_is_harmless ("Content-Length: 5" ++ CRLF ++ CRLF ++ "he") "llo" "5" 17).
  - vm_compute. reflexivity.
  - vm_compute. reflexivity.
  - vm_compute. lia.
Defined.

Lemma processBuffer_one_line_witness :
  processBuffer ("  ping  " ++ LF) = (["ping"], EmptyString).
Proof.
  apply (processBuffer_one_line "  ping  ").
  unfold one_line. simpl. repeat (constructor; [discriminate|]). constructor.
Defined.

Lemma byteLength_ascii (s : string) :
  Forall (fun c => nat_of_ascii c < 128) (list_ascii_of_string s) →
  Buffer_byteLength s = String.length s.
Proof.
  induction s as [|c s IH]; intros H; [reflexivity|].
  simpl in H. inversion H as [|? ? Hc Hs]; subst. simpl.
  apply Nat.ltb_lt in Hc. rewrite Hc, (IH Hs). reflexivity.
Qed.

(** X19: what [send] writes, the framer reads. A response whose JSON
    text is ASCII, framed by the server and followed by anything, comes
    out of [processBuffer] as that JSON text, and the rest is drained as
    if it stood alone. *)
Theorem frame_reads_back (response : Mcp.JsonRpcResponse) (rest : string) :
  Forall (fun c => nat_of_ascii c < 128)
    (list_ascii_of_string (json_text (Mcp.response_value response))) →
  processBuffer (frame response ++ rest)
  = (json_text (Mcp.response_value response) :: (processBuffer rest).1,
     (processBuffer rest).2).
Proof.
  intros Hascii.
  assert (Hframe : frame response = wire (json_text (Mcp.response_value response))).
  { unfold frame, wire, json_text in *.
    destruct (JSON_stringify (Mcp.response_value response)) as [t|] eqn:E;
      [| discriminate E].
    rewrite (byteLength_ascii t Hascii). reflexivity. }
  rewrite Hframe. apply drain_wire.
Qed.

Lemma frame_reads_back_witness :
  processBuffer (frame (Mcp.mcpResult (VNum 1) (VObj [("ok", VBool true)])) ++ "rest")
  = ([json_text (Mcp.response_value (Mcp.mcpResult (VNum 1) (VObj [("ok", VBool true)])))],
     "rest").
Proof.
  rewrite (frame_reads_back (Mcp.mcpResult (VNum 1) (VObj [("ok", VBool true)])) "rest").
  - vm_compute. reflexivity.
  - apply (bool_decide_unpack _). vm_compute. reflexivity.
Defined.

End FramerMoreFacts.

(** ** More on the dispatcher *)

Section DispatcherMoreFacts.
Import Js Auth Mcp.
Context {St : Type}.
Variable ALL_TOOLS : list (McpTool St).

Lemma call_tool_id i params ctx env (st : St) :
  id (call_tool ALL_TOOLS i params ctx env st).1 = i ∧
  (is_Some (result (call_tool ALL_TOOLS i params ctx env st).1)
   ↔ error (call_tool ALL_TOOLS i params ctx env st).1 = None).
Proof.
  unfold call_tool.
  destruct (negb (truthy (prop "name" params)));
    [split; [reflexivity | split; [intros [? [=]] | discriminate]]|].
  destruct (TOOL_MAP_get ALL_TOOLS (prop "name" params)) as [tool|];
    [| split; [reflexivity | split; [intros [? [=]] | discriminate]]].
  destruct (handler tool _ ctx env st) as [[r|err] st'].
  - split; [reflexivity | split; [reflexivity | eauto]].
  - destruct (code_and_message err) as [[code message]|];
      (split; [reflexivity | split; [intros [? [=]] | discriminate]]).
Qed.

Lemma handleJsonRpc_shape (req : value) ctx env (st : St) :
  match handleJsonRpc ALL_TOOLS req ctx env st with
  | (Normal response, _) =>
      req ≠ VNull ∧ req ≠ VUndefined ∧
      id response = prop "id" req ∧
      (is_Some (result response) ↔ error response = None)
  | (Throw _, st') => (req = VNull ∨ req = VUndefined) ∧ st' = st
  end.
Proof.
  assert (Hok : ∀ i r, is_Some (result (mcpResult i r)) ↔ error (mcpResult i r) = None)
    by (intros; split; [reflexivity | simpl; eauto]).
  assert (Herr : ∀ i c m, is_Some (result (mcpError i c m)) ↔ error (mcpError i c m) = None)
    by (intros; split; [intros [? [=]] | discriminate]).
  unfold handleJsonRpc.
  destruct req; try (split; [auto | reflexivity]);
    (destruct (prop "method" _) as [| | | |m| |];
     [split; [discriminate | split; [discriminate | split; [reflexivity | apply Herr]]] ..
     | | split; [discriminate | split; [discriminate | split; [reflexivity | apply Herr]]]
     | split; [discriminate | split; [discriminate | split; [reflexivity | apply Herr]]] ]);
    (destruct (String.eqb m "initialize");
       [split; [discriminate | split; [discriminate | split; [reflexivity | apply Hok]]]|];
     destruct (String.eqb m "tools/list");
       [split; [discriminate | split; [discriminate | split; [reflexivity | apply Hok]]]|];
     destruct (String.eqb m "tools/call");
       [ match goal with |- context [call_tool ALL_TOOLS ?i ?p ctx env st] =>
           pose proof (call_tool_id i p ctx env st) as [Hid Hone];
           destruct (call_tool ALL_TOOLS i p ctx env st) as [response st'];
           split; [discriminate | split; [discriminate | split; [exact Hid | exact Hone]]]
         end |];
     destruct (String.eqb m "notifications/initialized" || String.eqb m "ping");
       split; try discriminate; split; try discriminate; split;
       first [reflexivity | apply Hok | apply Herr]).
Qed.

(** X20: every request that is an object, a number, a string, a boolean
    or an array is answered, with a response that carries the id of the
    request and either a result or an error, never both and never
    neither; only [null] makes the dispatcher reject, and then the state
    is untouched. *)
Theorem handleJsonRpc_answers (req : value) ctx env (st : St) :
  match handleJsonRpc ALL_TOOLS req ctx env st with
  | (Normal response, _) =>
      req ≠ VNull ∧ req ≠ VUndefined ∧
      id response = prop "id" req ∧
      (is_Some (result response) ↔ error response = None)
  | (Throw _, st') => (req = VNull ∨ req = VUndefined) ∧ st' = st
  end.
Proof. apply handleJsonRpc_shape. Qed.

(** X21: the state behind [env.db] changes only in the hands of a
    handler. Whatever the request, the state after it is the state before
    it, or the request is a [tools/call] that names a registered tool and
    the state is the one that tool's handler left. *)
Theorem state_changes_only_through_handlers (req : value) ctx env (st : St) :
  (handleJsonRpc ALL_TOOLS req ctx env st).2 = st ∨
  ∃ n tool,
    prop "method" req = VStr "tools/call" ∧
    prop "name" (prop "params" req) = VStr n ∧
    TOOL_MAP ALL_TOOLS !! n = Some tool ∧
    (handleJsonRpc ALL_TOOLS req ctx env st).2
    = (handler tool (match prop "arguments" (prop "params" req) with
                     | VUndefined | VNull => VObj []
                     | a => a
                     end) ctx env st).2.
Proof.
  destruct (prop "method" req) as [| | | |m| |] eqn:Em;
    try (left; unfold handleJsonRpc; destruct req; try reflexivity;
         rewrite Em; reflexivity).
  destruct (String.eqb_spec m "tools/call") as [-> | Hne].
  - rewrite (handleJsonRpc_tools_call ALL_TOOLS _ _ _ _ Em). cbn [snd].
    unfold call_tool.
    destruct (negb (truthy (prop "name" (prop "params" req)))); [left; reflexivity|].
    destruct (prop "name" (prop "params" req)) as [| | | |n| |] eqn:En;
      try (left; reflexivity).
    cbn [TOOL_MAP_get].
    destruct (TOOL_MAP ALL_TOOLS !! n) as [tool|] eqn:Et; [| left; reflexivity].
    right. exists n, tool.
    split; [reflexivity|]. split; [reflexivity|]. split; [exact Et|].
    destruct (handler tool _ ctx env st) as [[r|err] st']; [reflexivity|].
    destruct (code_and_message err) as [[code message]|]; reflexivity.
  - left. apply String.eqb_neq in Hne. unfold handleJsonRpc.
    destruct req; try discriminate Em; rewrite Em, Hne.
    destruct (String.eqb m "initialize"); [reflexivity|].
    destruct (String.eqb m "tools/list"); [reflexivity|].
    destruct (String.eqb m "notifications/initialized" || String.eqb m "ping");
      reflexivity.
Qed.

Lemma TOOL_MAP_snoc (tools : list (McpTool St)) (t : McpTool St) :
  TOOL_MAP (tools ++ [t]) = <[name t := t]> (TOOL_MAP tools).
Proof. unfold TOOL_MAP. rewrite foldl_snoc. reflexivity. Qed.

Lemma TOOL_MAP_sound (tools : list (McpTool St)) (n : string) (t : McpTool St) :
  TOOL_MAP tools !! n = Some t → t ∈ tools ∧ name t = n.
Proof.
  induction tools as [|x tools IH] using rev_ind.
  - unfold TOOL_MAP. simpl. rewrite lookup_empty. discriminate.
  - rewrite TOOL_MAP_snoc. destruct (decide (name x = n)) as [<- | Hne].
    + rewrite lookup_insert_eq. intros [= <-]. split; [set_solver | reflexivity].
    + rewrite lookup_insert_ne by exact Hne. intros H.
      destruct (IH H) as [Hin Hn]. split; [set_solver | exact Hn].
Qed.

Lemma TOOL_MAP_complete (tools : list (McpTool St)) (t : McpTool St) :
  t ∈ tools → is_Some (TOOL_MAP tools !! name t).
Proof.
  induction tools as [|x tools IH] using rev_ind; [intros H; inversion H|].
  rewrite TOOL_MAP_snoc. intros H.
  destruct (decide (name x = name t)) as [<- | Hne].
  - rewrite lookup_insert_eq. eauto.
  - rewrite lookup_insert_ne by exact Hne. apply IH.
    apply elem_of_app in H as [H | H]; [exact H|].
    apply list_elem_of_singleton in H. congruence.
Qed.

Lemma TOOL_MAP_unique (tools : list (McpTool St)) (t : McpTool St) :
  NoDup (name <$> tools) → t ∈ tools → TOOL_MAP tools !! name t = Some t.
Proof.
  intros Hnd Hin. destruct (TOOL_MAP_complete tools t Hin) as [t' Ht'].
  rewrite Ht'. f_equal. apply TOOL_MAP_sound in Ht' as [Hin' Hname].
  clear -Hnd Hin Hin' Hname.
  induction tools as [|x tools IH]; [inversion Hin|].
  rewrite fmap_cons in Hnd. apply NoDup_cons in Hnd as [Hnot Hnd].
  apply elem_of_cons in Hin as [-> | Hin], Hin' as [-> | Hin'].
  - reflexivity.
  - exfalso. apply Hnot. rewrite <- Hname. apply list_elem_of_fmap. eauto.
  - exfalso. apply Hnot. rewrite Hname. apply list_elem_of_fmap. eauto.
  - apply IH; assumption.
Qed.

(** X22: the registry agrees with the list of tools. A name resolves
    exactly when a tool of [ALL_TOOLS] has it, what it resolves to is a
    tool of the list with that name, and when the names of the list are
    distinct every tool is found under its own name. *)
Theorem registry_agrees_with_list (n : string) (t : McpTool St) :
  (TOOL_MAP ALL_TOOLS !! n = Some t → t ∈ ALL_TOOLS ∧ name t = n) ∧
  (is_Some (TOOL_MAP ALL_TOOLS !! n) ↔ n ∈ (name <$> ALL_TOOLS)) ∧
  (NoDup (name <$> ALL_TOOLS) → t ∈ ALL_TOOLS → TOOL_MAP ALL_TOOLS !! name t = Some t).
Proof.
  split; [apply TOOL_MAP_sound|]. split; [| apply TOOL_MAP_unique].
  split.
  - intros [t' Ht']. apply TOOL_MAP_sound in Ht' as [Hin <-].
    apply list_elem_of_fmap. eauto.
  - intros Hin. apply list_elem_of_fmap in Hin as (t' & -> & Hin).
    apply TOOL_MAP_complete, Hin.
Qed.

End DispatcherMoreFacts.

Lemma registry_agrees_with_list_witness :
  (counting_tool ∈ [counting_tool] ∧ Mcp.name counting_tool = "touch") ∧
  Mcp.TOOL_MAP [counting_tool] !! "touch" = Some counting_tool.
Proof.
  split.
  - refine (proj1 (registry_agrees_with_list [counting_tool] "touch" counting_tool) _).
    vm_compute. reflexivity.
  - refine (proj2 (proj2 (registry_agrees_with_list [counting_tool] "touch" counting_tool))
              _ _).
    + apply NoDup_singleton.
    + apply list_elem_of_singleton. reflexivity.
Defined.

(** ** The owner gate *)

Section GateFacts.
Import Js Auth.

(** X23: [requireOwner] after [resolveAuth]. With auth disabled the gate
    lets every caller through as owner; with auth enabled it lets through
    exactly the callers that present the configured secret, when that
    secret is not empty, and throws the plain object with code 403 and
    the message [Owner access required] at everyone else; a missing
    context is thrown at as well. *)
Theorem owner_gate (authEnabled : bool) (ownerKey providedKey : option string) :
  let denied := ThrownValue (VObj [("code", VNum 403);
                                   ("message", VStr "Owner access required")]) in
  let presents_secret :=
    ∃ secret, secret ≠ EmptyString ∧ ownerKey = Some secret ∧ providedKey = Some secret in
  requireOwner None = Throw denied ∧
  match requireOwner (resolveAuth authEnabled ownerKey providedKey) with
  | Normal ctx => role ctx = owner ∧ (authEnabled = false ∨ presents_secret)
  | Throw e => e = denied ∧ authEnabled = true ∧ ¬ presents_secret
  end.
Proof.
  cbv zeta. split; [reflexivity|]. unfold resolveAuth.
  destruct authEnabled; simpl; [| split; [reflexivity | left; reflexivity]].
  destruct providedKey as [p|]; simpl.
  - destruct (String.eqb_spec p EmptyString) as [-> | Hp]; simpl.
    + split; [reflexivity|]. split; [reflexivity|].
      intros (s & Hs & _ & H). congruence.
    + destruct ownerKey as [o|]; simpl.
      * destruct (String.eqb_spec o EmptyString) as [-> | Ho]; simpl.
        -- split; [reflexivity|]. split; [reflexivity|].
           intros (s & Hs & H & _). congruence.
        -- destruct (String.eqb_spec p o) as [-> | Hpo]; simpl.
           ++ split; [reflexivity|]. right. exists o. auto.
           ++ split; [reflexivity|]. split; [reflexivity|].
              intros (s & _ & H1 & H2). congruence.
      * split; [reflexivity|]. split; [reflexivity|].
        intros (s & _ & H & _). discriminate.
  - split; [reflexivity|]. split; [reflexivity|].
    intros (s & _ & _ & H). discriminate.
Qed.

End GateFacts.

(** ** More on the server loop *)

Section ServerMoreFacts.
Import Js Auth Mcp Stdio.
Context {St : Type}.
Variable ALL_TOOLS : list (McpTool St).
Variable JSON_parse : string → option value.
Variable env : Env.
Variable ctx : option AuthContext.

Lemma handleMessage_cases (body : string) (s : Session) :
  stdout (handleMessage ALL_TOOLS JSON_parse env ctx body s) = stdout s ∨
  ∃ req response,
    JSON_parse body = Some req ∧
    prop "id" req ≠ VNull ∧ prop "id" req ≠ VUndefined ∧
    id response = prop "id" req ∧
    stdout (handleMessage ALL_TOOLS JSON_parse env ctx body s)
    = (stdout s ++ [frame response])%list.
Proof.
  unfold handleMessage. destruct (JSON_parse body) as [req|] eqn:Ep; [| left; reflexivity].
  pose proof (handleJsonRpc_shape ALL_TOOLS req ctx env (state s)) as Hshape.
  destruct (handleJsonRpc ALL_TOOLS req ctx env (state s)) as [[response|e] st'];
    [| left; reflexivity].
  destruct Hshape as (_ & _ & Hid & _).
  destruct (prop "id" req) eqn:Ei; try (left; reflexivity);
    right; exists req, response; rewrite Ei;
    (split; [reflexivity|]); (split; [discriminate|]); (split; [discriminate|]);
    (split; [exact Hid | reflexivity]).
Qed.

Lemma fold_handleMessage_appends (bodies : list string) (s : Session) :
  ∃ frames,
    stdout (fold_left (fun acc body => handleMessage ALL_TOOLS JSON_parse env ctx body acc)
              bodies s)
    = (stdout s ++ frames)%list ∧
    (length frames ≤ length bodies)%nat.
Proof.
  revert s. induction bodies as [|body bodies IH]; intros s.
  - exists []. split; [rewrite app_nil_r; reflexivity | reflexivity].
  - cbn [fold_left].
    destruct (IH (handleMessage ALL_TOOLS JSON_parse env ctx body s)) as (frames & Hout & Hlen).
    destruct (handleMessage_cases body s) as [Hsame | (req & response & _ & _ & _ & _ & Hone)].
    + exists frames. rewrite Hout, Hsame. split; [reflexivity | simpl; lia].
    + exists (frame response :: frames). rewrite Hout, Hone, <- app_assoc.
      split; [reflexivity | simpl; lia].
Qed.

(** X24: the server only ever appends to standard output. A body that
    does not parse leaves output and state as they were; any other body
    leaves the output as it was or adds one frame, the frame of a
    response that carries the id of the request, and only for a request
    whose id is neither [null] nor absent; and a chunk of input adds at
    most one frame for each message that [processBuffer] extracts. *)
Theorem server_only_appends (buffer chunk body : string) (s : Session) :
  (JSON_parse body = None →
     handleMessage ALL_TOOLS JSON_parse env ctx body s = s) ∧
  (stdout (handleMessage ALL_TOOLS JSON_parse env ctx body s) = stdout s ∨
   ∃ req response,
     JSON_parse body = Some req ∧
     prop "id" req ≠ VNull ∧ prop "id" req ≠ VUndefined ∧
     id response = prop "id" req ∧
     stdout (handleMessage ALL_TOOLS JSON_parse env ctx body s)
     = (stdout s ++ [frame response])%list) ∧
  (∃ frames,
     stdout (on_data ALL_TOOLS JSON_parse env ctx buffer chunk s).2
     = (stdout s ++ frames)%list ∧
     (length frames ≤ length (processBuffer (buffer ++ chunk)).1)%nat).
Proof.
  split; [| split].
  - intros Hp. unfold handleMessage. rewrite Hp. reflexivity.
  - apply handleMessage_cases.
  - unfold on_data. destruct (processBuffer (buffer ++ chunk)) as [bodies remaining].
    apply fold_handleMessage_appends.
Qed.

End ServerMoreFacts.

Lemma server_only_appends_witness :
  Stdio.handleMessage [counting_tool] sample_parse sample_env None "not json"
    {| Stdio.stdout := []; Stdio.state := 0 |}
  = {| Stdio.stdout := []; Stdio.state := 0 |}.
Proof.
  refine (proj1 (server_only_appends [counting_tool] sample_parse sample_env None
                   EmptyString EmptyString "not json" {| Stdio.stdout := []; Stdio.state := 0 |}) _).
  vm_compute. reflexivity.
Defined.

(** ** [clear_notes] *)

Section NotesFacts.
Import Js Auth Sqlite Notes.

Lemma clear_notes_denied (args : Js.value) (ctx : option AuthContext) (env : Mcp.Env)
    (db : Database) :
  ctx = None ∨ ctx = Some {| role := public |} →
  clear_notes args ctx env db = (Throw (plain_error 403 "Owner access required"), db).
Proof. intros [-> | ->]; reflexivity. Qed.

(** X25: [clear_notes] is for the owner. Called without a context or
    with a public one it throws the 403 object and the database is as it
    was; through the dispatcher, a [tools/call] of it gets the error
    response with code 403 and the message [Owner access required]. *)
Theorem clear_notes_needs_owner (ALL_TOOLS : list (Mcp.McpTool Database))
    (req : Js.value) (ctx : option AuthContext) (env : Mcp.Env) (db : Database) :
  ctx = None ∨ ctx = Some {| role := public |} →
  Mcp.TOOL_MAP ALL_TOOLS !! "clear_notes" = Some clear_notes_tool →
  prop "method" req = VStr "tools/call" →
  prop "name" (prop "params" req) = VStr "clear_notes" →
  (∀ args, clear_notes args ctx env db
           = (Throw (plain_error 403 "Owner access required"), db)) ∧
  Mcp.handleJsonRpc ALL_TOOLS req ctx env db
  = (Normal (Mcp.mcpError (prop "id" req) (VNum 403) (VStr "Owner access required")), db).
Proof.
  intros Hctx Htool Hm Hname.
  split; [intros args; apply clear_notes_denied, Hctx|].
  rewrite (handleJsonRpc_tools_call ALL_TOOLS _ _ _ _ Hm).
  unfold Mcp.call_tool. rewrite Hname. cbn [truthy String.eqb Ascii.eqb Bool.eqb negb
                                          Mcp.TOOL_MAP_get].
  rewrite Htool. cbn [Mcp.handler clear_notes_tool].
  rewrite (clear_notes_denied _ ctx env db Hctx). reflexivity.
Qed.

Lemma clear_notes_needs_owner_witness :
  Mcp.handleJsonRpc [clear_notes_tool] (tools_call (VNum 7) (VStr "clear_notes"))
    (Some {| role := public |}) sample_env notes_db
  = (Normal (Mcp.mcpError (VNum 7) (VNum 403) (VStr "Owner access required")), notes_db).
Proof.
  refine (proj2 (clear_notes_needs_owner [clear_notes_tool]
                   (tools_call (VNum 7) (VStr "clear_notes"))
                   (Some {| role := public |}) sample_env notes_db _ _ _ _)).
  - right. reflexivity.
  - exact (TOOL_MAP_unique [clear_notes_tool] clear_notes_tool
             (NoDup_singleton _) (list_elem_of_here _ _)).
  - reflexivity.
  - reflexivity.
Defined.

Lemma batch_filters_parse (args : Js.value) :
  batch_filters args ≠ [] → where_parses (where_ (buildWhere (batch_filters args))) = true.
Proof.
  intros Hne.
  destruct (where_parses (where_ (buildWhere (batch_filters args)))) eqn:E; [reflexivity|].
  apply where_parses_buildWhere in E as [_ Hall]. exfalso.
  unfold batch_filters in *.
  destruct (prop "target_article" args), (truthy (prop "status" args));
    simpl in Hall; try discriminate; apply Hne; reflexivity.
Qed.

(** X26: without an id, a target article or a status, [clear_notes]
    refuses: it throws the 400 object and deletes nothing. *)
Theorem clear_notes_needs_a_selector (args : Js.value) (env : Mcp.Env) (db : Database) :
  truthy (prop "id" args) = false →
  prop "target_article" args = VNull ∨ prop "target_article" args = VUndefined →
  truthy (prop "status" args) = false →
  clear_notes args (Some {| role := owner |}) env db
  = (Throw (plain_error 400
              "Provide id, target_article, or status to specify what to delete"), db).
Proof.
  intros Hid Hta Hst. unfold clear_notes. cbn [requireOwner]. rewrite Hid.
  unfold batch_filters. rewrite Hst. destruct Hta as [-> | ->]; reflexivity.
Qed.

Lemma clear_notes_needs_a_selector_witness :
  clear_notes (VObj [("confirm", VBool true)]) (Some {| role := owner |}) sample_env notes_db
  = (Throw (plain_error 400
              "Provide id, target_article, or status to specify what to delete"), notes_db).
Proof.
  apply clear_notes_needs_a_selector.
  - reflexivity.
  - right. reflexivity.
  - reflexivity.
Defined.

(** X27: a batch is never deleted without [confirm]. When no id is given
    and [confirm] is not truthy the database is as it was, whoever calls
    and whatever else is given; and when notes match, the owner gets the
    preview with their number. *)
Theorem clear_notes_previews_without_confirm (args : Js.value)
    (ctx : option AuthContext) (env : Mcp.Env) (db : Database) (n : nat) :
  truthy (prop "id" args) = false →
  truthy (prop "confirm" args) = false →
  (clear_notes args ctx env db).2 = db ∧
  (batch_filters args ≠ [] →
   count "editorial_notes" (Some (batch_filters args)) db = Normal (S n) →
   (clear_notes args (Some {| role := owner |}) env db).1
   = Normal (VObj [("preview", VBool true);
                   ("count", VNum (Z.of_nat (S n)));
                   ("message",
                    VStr (nat_to_string (S n) ++
                          " note(s) will be deleted. Call again with confirm: true to proceed."))])).
Proof.
  intros Hid Hconfirm. split.
  - unfold clear_notes. destruct (requireOwner ctx); [| reflexivity].
    rewrite Hid, Hconfirm.
    destruct (batch_filters args) as [|f fs]; [reflexivity|].
    destruct (count "editorial_notes" (Some (f :: fs)) db) as [[|k]|e]; reflexivity.
  - intros Hne Hcount. unfold clear_notes. cbn [requireOwner]. rewrite Hid, Hconfirm.
    destruct (batch_filters args) as [|f fs]; [congruence|].
    rewrite Hcount. reflexivity.
Qed.

Lemma clear_notes_previews_without_confirm_witness :
  (clear_notes (clear_used false) (Some {| role := owner |}) sample_env notes_db).2 = notes_db ∧
  (clear_notes (clear_used false) (Some {| role := owner |}) sample_env notes_db).1
  = Normal (VObj [("preview", VBool true);
                  ("count", VNum 1);
                  ("message",
                   VStr "1 note(s) will be deleted. Call again with confirm: true to proceed.")]).
Proof.
  destruct (clear_notes_previews_without_confirm (clear_used false)
              (Some {| role := owner |}) sample_env notes_db 0 eq_refl eq_refl)
    as [Hsame Hpreview].
  split; [exact Hsame|].
  rewrite Hpreview; [reflexivity | discriminate | vm_compute; reflexivity].
Defined.

(** X28: a confirmed batch clears what matched. When the owner's call
    returns, no note matches the filters of the batch any more, the
    number it reports as deleted is the number of notes that matched, the
    table is shorter by that number, and the other tables are as they
    were. *)
Theorem clear_notes_confirmed_clears (args : Js.value) (env : Mcp.Env)
    (db db' : Database) (answer : Js.value) :
  truthy (prop "id" args) = false →
  truthy (prop "confirm" args) = true →
  clear_notes args (Some {| role := owner |}) env db = (Normal answer, db') →
  ∃ n,
    count "editorial_notes" (Some (batch_filters args)) db = Normal n ∧
    prop "deleted" answer = VNum (Z.of_nat n) ∧
    count "editorial_notes" (Some (batch_filters args)) db' = Normal 0 ∧
    length (rows_of db' "editorial_notes") + n = length (rows_of db "editorial_notes") ∧
    (∀ t, t ≠ "editorial_notes" → db' !! t = db !! t).
Proof.
  intros Hid Hconfirm. unfold clear_notes. cbn [requireOwner]. rewrite Hid, Hconfirm.
  destruct (batch_filters args) as [|f fs] eqn:Efs; [discriminate|].
  rewrite <- Efs.
  destruct (count "editorial_notes" (Some (batch_filters args)) db) as [[|k]|e] eqn:Ec;
    [| | discriminate].
  - intros [= <- <-]. exists 0. repeat split; try reflexivity; [exact Ec | lia].
  - cbn [negb].
    destruct (delete "editorial_notes" (batch_filters args) db) as [[deleted|e] db1] eqn:Ed;
      [| discriminate].
    intros [= <- <-].
    destruct (delete_effect _ _ _ _ _ Ed) as (_ & Hbefore & Hafter & _ & Hlen & Hother).
    rewrite Ec in Hbefore. injection Hbefore as Hk.
    exists (S k). repeat split; try reflexivity; try assumption.
    rewrite Hk. exact Hlen.
Qed.

Lemma clear_notes_confirmed_clears_witness :
  count "editorial_notes" (Some (batch_filters (clear_used true)))
    (clear_notes (clear_used true) (Some {| role := owner |}) sample_env notes_db).2
  = Normal 0.
Proof.
  destruct (clear_notes_confirmed_clears (clear_used true) sample_env notes_db
              (clear_notes (clear_used true) (Some {| role := owner |}) sample_env notes_db).2
              (VObj [("deleted", VNum 1); ("message", VStr "1 note(s) cleared.")])
              eq_refl eq_refl)
    as (n & _ & _ & Hafter & _).
  - vm_compute. reflexivity.
  - exact Hafter.
Defined.




End NotesFacts.

(** ** [loadConfig] *)

Section ConfigFacts.
Import Js Config.

(** X30: [loadConfig] returns only configurations it has checked. With
    no overrides it returns the defaults. What it returns for [sqlite]
    has a database path that is not empty (the default path when the
    overrides gave none), what it returns for [supabase] has a URL and a
    key that are not empty, and it throws exactly when the database is
    [supabase] and the URL or the key is missing or empty. When the
    overrides leave [auth] alone, auth is disabled and [resolveAuth]
    makes every caller owner. *)
Theorem loadConfig_validates (overrides : option Overrides) :
  loadConfig None = Normal DEFAULT_CONFIG ∧
  match loadConfig overrides with
  | Normal c =>
      (db_type (database c) = sqlite → Auth.key_falsy (path (database c)) = false) ∧
      (db_type (database c) = supabase →
         Auth.key_falsy (supabaseUrl (database c)) = false ∧
         Auth.key_falsy (supabaseKey (database c)) = false) ∧
      (c = spread overrides ∨ c = with_path (spread overrides) "./data/inkwell.db") ∧
      ((∀ o, overrides = Some o → o_auth o = None) →
       ∀ presented,
         Auth.resolveAuth (enabled (auth c)) (ownerKey (auth c)) presented
         = Some {| Auth.role := Auth.owner |})
  | Throw e =>
      e = ThrownError "Supabase config requires supabaseUrl and supabaseKey" [] ∧
      db_type (database (spread overrides)) = supabase ∧
      (Auth.key_falsy (supabaseUrl (database (spread overrides))) = true ∨
       Auth.key_falsy (supabaseKey (database (spread overrides))) = true)
  end.
Proof.
  split; [reflexivity|]. unfold loadConfig.
  assert (Hauth : (∀ o, overrides = Some o → o_auth o = None) →
                  auth (spread overrides) = {| enabled := false; ownerKey := None |}).
  { intros H. destruct overrides as [o|]; [| reflexivity].
    simpl. rewrite (H o eq_refl). reflexivity. }
  cbv zeta.
  destruct (db_type (database (spread overrides))) eqn:Et.
  - destruct (Auth.key_falsy (path (database (spread overrides)))) eqn:Ep.
    + cbn [with_path database db_type path auth]. rewrite Et.
      cbn [with_path database db_type path auth]. rewrite Et.
      split; [reflexivity|]. split; [discriminate|]. split; [right; reflexivity|].
      intros H presented. rewrite (Hauth H). reflexivity.
    + rewrite Et. split; [intros _; exact Ep|]. split; [congruence|].
      split; [left; reflexivity|].
      intros H presented. rewrite (Hauth H). reflexivity.
  - rewrite Et.
    destruct (Auth.key_falsy (supabaseUrl (database (spread overrides)))) eqn:Eu;
      [cbn [orb]; split; [reflexivity | split; [reflexivity | left; reflexivity]]|].
    destruct (Auth.key_falsy (supabaseKey (database (spread overrides)))) eqn:Ek;
      [cbn [orb]; split; [reflexivity | split; [reflexivity | right; reflexivity]]|].
    cbn [orb]. split; [congruence|]. split; [intros _; split; assumption|].
    split; [left; reflexivity|].
    intros H presented. rewrite (Hauth H). reflexivity.
Qed.

Lemma loadConfig_validates_witness :
  ∃ c,
    loadConfig (Some renamed_overrides) = Normal c ∧
    name c = "The Weekly Ink" ∧
    database c = database DEFAULT_CONFIG ∧
    ∀ presented,
      Auth.resolveAuth (enabled (auth c)) (ownerKey (auth c)) presented
      = Some {| Auth.role := Auth.owner |}.
Proof.
  eexists. split; [reflexivity|]. split; [reflexivity|]. split; [reflexivity|].
  refine (proj2 (proj2 (proj2 (proj2 (loadConfig_validates (Some renamed_overrides))))) _).
  intros o [= <-]. reflexivity.
Defined.

End ConfigFacts.
